(** * Thrift TBinaryProtocol (JavaScript): a shallow embedding

    The development follows [thrift/protocol/binary.js] in its two
    revisions: the one that packs integers through [pack16], [pack32] and
    [pack64] (called the packed revision below) and the older one that
    shifts bytes inline (module [Legacy]).

    JavaScript numbers are modelled by [Z]; every bitwise operator goes
    through [ToInt32], as in the language.  Exceptions are values of
    [exn]; the protocol methods run in a state-and-exception monad over
    the transport. *)

From Stdlib Require Import Ascii String ZArith Bool List Lia.
Import ListNotations.
Local Open Scope Z_scope.

(** ** JavaScript integer operators *)

Module JS.

(** [ToInt32]: reduce modulo 2^32 into [-2^31, 2^31). *)
Definition ToInt32 (x : Z) : Z := (x + 2147483648) mod 4294967296 - 2147483648.

(** The shift count of [<<] and [>>] is taken modulo 32. *)
Definition shiftCount (n : Z) : Z := Z.land n 31.

Definition band (a b : Z) : Z := Z.land (ToInt32 a) (ToInt32 b).
Definition bor (a b : Z) : Z := Z.lor (ToInt32 a) (ToInt32 b).
Definition bxor (a b : Z) : Z := Z.lxor (ToInt32 a) (ToInt32 b).
Definition shl (a n : Z) : Z := ToInt32 (Z.shiftl (ToInt32 a) (shiftCount n)).
Definition sar (a n : Z) : Z := Z.shiftr (ToInt32 a) (shiftCount n).

(** Truthiness of a number: everything but zero. *)
Definition truthy (x : Z) : bool := negb (x =? 0).

(** [a !== b] on numbers, as a number when used as an operand of [&]. *)
Definition strictNe (a b : Z) : bool := negb (a =? b).
Definition ofBool (b : bool) : Z := if b then 1 else 0.

(** [arr[i]] where a missing element reads as [undefined], which every
    bitwise operator turns into 0. *)
Definition index (arr : list Z) (i : nat) : Z := nth i arr 0.

End JS.

Infix ".&" := JS.band (at level 40, left associativity).
Infix ".|" := JS.bor (at level 50, left associativity).
Infix ".^" := JS.bxor (at level 45, left associativity).
Infix ".<<" := JS.shl (at level 31, left associativity).
Infix ".>>" := JS.sar (at level 31, left associativity).

(** ** Exceptions *)

Inductive exn : Type :=
| OutOfRange (width : Z) (value : Z)   (* TBinaryProtocolException, 'Number is less/greater than ...' *)
| SizeMismatch (expected : Z) (actual : Z) (* TBinaryProtocolException, '... packed value is not N bytes' *)
| MissingVersionIdentifier
| InvalidVersionIdentifier
| IncorrectByte (value : Z)            (* new Error(byte + " is incorrect for byte.") *)
| IncorrectInt (width : Z) (value : Z) (* new Error(i16 + " is incorrect for i16.") and the like *)
| TypeError                            (* a property read on undefined *)
| ChannelError.                        (* the transport could not deliver the bytes asked for *)

Inductive result (A : Type) : Type :=
| Ok (a : A)
| Throw (e : exn).
Arguments Ok {A} a.
Arguments Throw {A} e.

(** ** Primitive packers (packed revision) *)

Definition int64max : Z := 0x1fffffffffffff.
Definition int64min : Z := - int64max.
Definition int32max : Z := 0x7fffffff.
Definition int32min : Z := - int32max.
Definition int16max : Z := 0x7fff.
Definition int16min : Z := - int16max.

Definition p32 (value : Z) : list Z :=
  let p1 := value .& 0xff in
  let p2 := (value .>> 8) .& 0xff in
  let p3 := (value .>> 16) .& 0xff in
  let p4 := (value .>> 24) .& 0xff in
  [p4; p3; p2; p1].

Definition u32 (packed : list Z) : Z :=
  let value := 0 in
  let value := value .| (JS.index packed 0 .<< 24) in
  let value := value .| (JS.index packed 1 .<< 16) in
  let value := value .| (JS.index packed 2 .<< 8) in
  let value := value .| JS.index packed 3 in
  value.

Definition pack32 (value : Z) : result (list Z) :=
  if value <? int32min then Throw (OutOfRange 4 value)
  else if value >? int32max then Throw (OutOfRange 4 value)
  else Ok (p32 value).

Definition unpack32 (packed : list Z) : result Z :=
  if negb (Z.of_nat (length packed) =? 4)
  then Throw (SizeMismatch 4 (Z.of_nat (length packed)))
  else Ok (u32 packed).

Definition p16 (value : Z) : list Z :=
  let p1 := value .& 0xff in
  let p2 := (value .>> 8) .& 0xff in
  [p2; p1].

Definition pack16 (value : Z) : result (list Z) :=
  if value <? int16min then Throw (OutOfRange 2 value)
  else if value >? int16max then Throw (OutOfRange 2 value)
  else Ok (p16 value).

Definition u16 (packed : list Z) : Z :=
  let value := 0 in
  if JS.truthy (JS.index packed 0 .& 0x80) then
    let value := value .| ((JS.index packed 0 .^ 0xff) .<< 8) in
    let value := value .| (JS.index packed 1 .^ 0xff) in
    - value - 1
  else
    let value := value .| (JS.index packed 0 .<< 8) in
    let value := value .| JS.index packed 1 in
    value.

Definition unpack16 (packed : list Z) : result Z :=
  if negb (Z.of_nat (length packed) =? 2)
  then Throw (SizeMismatch 2 (Z.of_nat (length packed)))
  else Ok (u16 packed).

(** *** Hexadecimal strings, for the 64-bit packer

    A JavaScript string is a [list ascii] here.  The numbers these
    functions meet are integers; where JavaScript would round a value
    above 2^53 the model keeps it exact. *)

Definition str (s : string) : list ascii := list_ascii_of_string s.

(** [s.substring(a, b)] and [s.substring(a)]; a start index below 0 is
    clamped to 0, which the subtraction on [nat] does. *)
Definition substring (a b : nat) (s : list ascii) : list ascii :=
  firstn (b - a) (skipn a s).
Definition substringFrom (a : nat) (s : list ascii) : list ascii := skipn a s.

Definition digitChar (d : Z) : ascii :=
  nth (Z.to_nat d) (str "0123456789abcdefghijklmnopqrstuvwxyz") "0"%char.

Definition digitValue (c : ascii) : option Z :=
  let n := Z.of_N (N_of_ascii c) in
  if (48 <=? n) && (n <=? 57) then Some (n - 48)
  else if (97 <=? n) && (n <=? 122) then Some (n - 87)
  else if (65 <=? n) && (n <=? 90) then Some (n - 55)
  else None.

(** [num.toString(radix)] for an integer [num]. The digits of a
    non-negative [n] need at most [log2 n + 1] steps. *)
Fixpoint toStringDigits (fuel : nat) (radix n : Z) : list ascii :=
  match fuel with
  | O => [digitChar n]
  | S fuel' =>
      if n <? radix then [digitChar n]
      else toStringDigits fuel' radix (n / radix) ++ [digitChar (n mod radix)]
  end.

Definition toString (num radix : Z) : list ascii :=
  if num <? 0
  then "-"%char :: toStringDigits (Z.to_nat (Z.log2 (- num))) radix (- num)
  else toStringDigits (Z.to_nat (Z.log2 num)) radix num.

(** [parseInt(s, radix)]: the longest prefix of digits below the radix,
    after an optional minus sign.  Where no digit can be read JavaScript
    answers NaN; the strings parsed in this file always start with a
    digit, and the model answers 0 there. *)
Fixpoint parseDigits (radix acc : Z) (s : list ascii) : Z :=
  match s with
  | [] => acc
  | c :: s' =>
      match digitValue c with
      | Some d => if d <? radix then parseDigits radix (acc * radix + d) s' else acc
      | None => acc
      end
  end.

Definition parseInt (s : list ascii) (radix : Z) : Z :=
  match s with
  | "-"%char :: s' => - parseDigits radix 0 s'
  | _ => parseDigits radix 0 s
  end.

Definition paddedHex (num : Z) (width : nat) : list ascii :=
  let padded := str "000000000000000000" ++ toString num 16 in
  substringFrom (length padded - width) padded.

(** The loop [for (i = 8; i > 0; i -= 1)] of [p64]; [push] is what the
    body pushes for the byte it parsed. *)
Fixpoint p64_loop (i : nat) (hexString : list ascii) (push : Z -> Z)
    (result : list Z) : list Z :=
  match i with
  | O => result
  | S i' =>
      let byte := parseInt (substring (i * 2 - 2) (i * 2) hexString) 16 in
      p64_loop i' hexString push (result ++ [push byte])
  end.

Definition p64 (i64 : Z) : list Z :=
  if i64 <? 0 then
    let hexString := paddedHex (Z.abs (i64 + 1)) 16 in
    rev (p64_loop 8 hexString (fun byte => byte .^ 0xff) [])
  else
    let hexString := paddedHex (Z.abs i64) 16 in
    rev (p64_loop 8 hexString (fun byte => byte) []).

Definition u64 (packed : list Z) : Z :=
  if JS.truthy (JS.index packed 0 .& parseInt (str "01111111") 2) then
    let hexString :=
      fold_left (fun hexString value => hexString ++ paddedHex (value .^ 0xff) 2)
                packed [] in
    - parseInt hexString 16 - 1
  else
    let hexString :=
      fold_left (fun hexString value => hexString ++ paddedHex value 2) packed [] in
    parseInt hexString 16.

Definition pack64 (i64 : Z) : result (list Z) :=
  if i64 <? int64min then Throw (OutOfRange 8 i64)
  else if i64 >? int64max then Throw (OutOfRange 8 i64)
  else Ok (p64 i64).

Definition unpack64 (packed : list Z) : result Z :=
  if negb (Z.of_nat (length packed) =? 8)
  then Throw (SizeMismatch 8 (Z.of_nat (length packed)))
  else Ok (u64 packed).

(** ** The collaborators of the protocol *)

(** Modelled from the spec: the type tags and message kinds are the
    enumerations [Thrift.Type] and [Thrift.MessageType] of [../core],
    which is not among the sources.  The spec names the members; the
    numbers are the ones of the Thrift wire format, of which the spec's
    ping scenario shows [CALL = 1]. *)
Module Thrift.
Module Type_.
Definition STOP : Z := 0.
Definition BOOL : Z := 2.
Definition BYTE : Z := 3.
Definition DOUBLE : Z := 4.
Definition I16 : Z := 6.
Definition I32 : Z := 8.
Definition I64 : Z := 10.
Definition STRING : Z := 11.
Definition STRUCT : Z := 12.
Definition MAP : Z := 13.
Definition SET : Z := 14.
Definition LIST : Z := 15.
End Type_.
Module MessageType.
Definition CALL : Z := 1.
Definition REPLY : Z := 2.
Definition EXCEPTION : Z := 3.
Definition ONEWAY : Z := 4.
End MessageType.
End Thrift.

(** Modelled from the spec: the text codec [./utf8] is not among the
    sources.  A [string] of Rocq is a sequence of 8-bit characters and
    stands for the UTF-8 bytes of the text, so encoding lists the
    character codes and decoding reads them back. *)
Module utf8.
Definition encode (s : string) : list Z :=
  map (fun c => Z.of_N (N_of_ascii c)) (list_ascii_of_string s).
Definition decode (bytes : list Z) : string :=
  string_of_list_ascii (map (fun b => ascii_of_N (Z.to_N b)) bytes).
End utf8.

(** Modelled from the spec: the transport is the ordered byte channel of
    the spec's external interfaces.  [sent] holds the bytes appended so
    far, oldest first (a byte is stored as an octet, hence [mod 256]);
    [pending] holds the bytes still to be read.  A read that cannot be
    served in full is a channel error. *)
Record channel : Type := mkChannel {
  sent : list Z;
  pending : list Z
}.

(** The protocol object built by the constructor [Thrift.TBinaryProtocol].
    The constructor assigns [transport], [strictRead], [strictWrite] and
    [rstack]; [rpos] is a property no code of the protocol assigns, so a
    freshly built object reads it as undefined ([None]). *)
Record protocol : Type := mkProtocol {
  transport : channel;
  strictRead : bool;
  strictWrite : bool;
  rstack : list Z;
  rpos : option (list Z)
}.

Definition TBinaryProtocol (t : channel) (strictRead strictWrite : option bool) : protocol :=
  {| transport := t;
     strictRead := match strictRead with Some b => b | None => false end;
     strictWrite := match strictWrite with Some b => b | None => false end;
     rstack := [];
     rpos := None |}.

Definition VERSION_MASK : Z := 0xffff0000.
Definition VERSION_1 : Z := 0x80010000.
Definition TYPE_MASK : Z := 0x000000ff.

(** ** The monad of protocol methods: state [this], exceptions [exn] *)

Definition M (A : Type) : Type := protocol -> result A * protocol.

Definition ret {A} (a : A) : M A := fun this => (Ok a, this).
Definition throw {A} (e : exn) : M A := fun this => (Throw e, this).
Definition bind {A B} (m : M A) (k : A -> M B) : M B :=
  fun this =>
    match m this with
    | (Ok a, this') => k a this'
    | (Throw e, this') => (Throw e, this')
    end.
Definition lift {A} (r : result A) : M A := fun this => (r, this).
Definition this_ : M protocol := fun this => (Ok this, this).

Declare Scope js_scope.
Delimit Scope js_scope with js.
Notation "x <- m ;; k" := (bind m (fun x => k))
  (at level 100, m at next level, right associativity) : js_scope.
Notation "m ;; k" := (bind m (fun _ => k))
  (at level 100, right associativity) : js_scope.
Local Open Scope js_scope.

(** [arr.forEach(f)] *)
Fixpoint forEach {A} (arr : list A) (f : A -> M unit) : M unit :=
  match arr with
  | [] => ret tt
  | x :: rest => f x ;; forEach rest f
  end.

Definition withTransport (t : channel) (this : protocol) : protocol :=
  {| transport := t; strictRead := strictRead this; strictWrite := strictWrite this;
     rstack := rstack this; rpos := rpos this |}.

Module Transport.
Definition writeByte (b : Z) : M unit := fun this =>
  let t := transport this in
  (Ok tt, withTransport {| sent := sent t ++ [b mod 256]; pending := pending t |} this).

Definition write (buf : list Z) : M unit := fun this =>
  let t := transport this in
  (Ok tt, withTransport {| sent := sent t ++ map (fun b => b mod 256) buf;
                           pending := pending t |} this).

Definition readByte : M Z := fun this =>
  let t := transport this in
  match pending t with
  | [] => (Throw ChannelError, this)
  | b :: rest => (Ok b, withTransport {| sent := sent t; pending := rest |} this)
  end.

Definition read (len : Z) : M (list Z) := fun this =>
  let t := transport this in
  if (len <? 0) || (Z.of_nat (length (pending t)) <? len)
  then (Throw ChannelError, this)
  else (Ok (firstn (Z.to_nat len) (pending t)),
        withTransport {| sent := sent t; pending := skipn (Z.to_nat len) (pending t) |} this).
End Transport.

(** ** Values returned by the reader *)

Record AnonReadMessageBeginReturn : Type := mkMessage {
  fname : string; mtype : Z; rseqid : Z
}.
Record AnonReadFieldBeginReturn : Type := mkField { ftype : Z; fid : Z }.
(** [msize] is the [size] property of the map header. *)
Record AnonReadMapBeginReturn : Type := mkMapBegin { ktype : Z; vtype : Z; msize : Z }.
Record AnonReadColBeginReturn : Type := mkColBegin { etype : Z; size : Z }.

(** A double as [readDouble] computes it.  Each constructor stands for
    one [return] of the method; the arithmetic it names is exact in
    binary64, so the triple determines the value. *)
Inductive double : Type :=
| NaN
| Infinite (s : Z)           (* s * Infinity *)
| Normal (s e f : Z)         (* s * 2^(e - bias) * (1 + f / 2^fbits) *)
| Subnormal (s f : Z)        (* s * 2^-(bias - 1) * (f / 2^fbits) *)
| Zero (s : Z).              (* s * 0 *)

(** ** Frame writer *)

Definition writeByte (byte : Z) : M unit :=
  if (byte <=? 2 ^ 31 * -1) || (byte >=? 2 ^ 31)
  then throw (IncorrectByte byte)
  else Transport.writeByte byte.

Definition writeBool (b : bool) : M unit := writeByte (if b then 1 else 0).

Definition writeI16 (i16 : Z) : M unit :=
  bytes <- lift (pack16 i16) ;;
  forEach bytes Transport.writeByte.

Definition writeI32 (i32 : Z) : M unit :=
  bytes <- lift (pack32 i32) ;;
  forEach bytes Transport.writeByte.

Definition writeI64 (i64 : Z) : M unit :=
  bytes <- lift (pack64 i64) ;;
  forEach bytes Transport.writeByte.

Definition writeString (s : string) : M unit :=
  let bytes := utf8.encode s in
  writeI32 (Z.of_nat (length bytes)) ;;
  Transport.write bytes.

Definition writeBinary (buf : list Z) : M unit :=
  writeI32 (Z.of_nat (length buf)) ;;
  Transport.write buf.

Definition writeMessageBegin (name : string) (type seqid : Z) : M unit :=
  this <- this_ ;;
  if strictWrite this then
    writeI16 (VERSION_1 .>> 16) ;;
    writeI16 type ;;
    writeString name ;;
    writeI32 seqid
  else
    writeString name ;;
    writeByte type ;;
    writeI32 seqid.

Definition writeMessageEnd : M unit := ret tt.
Definition writeStructBegin (name : string) : M unit := ret tt.
Definition writeStructEnd : M unit := ret tt.

Definition writeFieldBegin (name : string) (type id : Z) : M unit :=
  writeByte type ;;
  writeI16 id.

Definition writeFieldEnd : M unit := ret tt.
Definition writeFieldStop : M unit := writeByte Thrift.Type_.STOP.

Definition writeMapBegin (keyType valType size : Z) : M unit :=
  writeByte keyType ;;
  writeByte valType ;;
  writeI32 size.

Definition writeMapEnd : M unit := ret tt.

Definition writeListBegin (elemType size : Z) : M unit :=
  writeByte elemType ;;
  writeI32 size.

Definition writeListEnd : M unit := ret tt.

Definition writeSetBegin (elemType size : Z) : M unit :=
  writeByte elemType ;;
  writeI32 size.

Definition writeSetEnd : M unit := ret tt.

(** ** Frame reader *)

Definition readByte : M Z :=
  val <- Transport.readByte ;;
  if val >? 0x7f then ret (0 - ((val - 1) .^ 0xff)) else ret val.

Definition readBool : M bool :=
  byte <- readByte ;;
  ret (negb (byte =? 0)).

(** The loop [for (i = 0; i < n; i += 1) packed.push(this.transport.readByte())]. *)
Fixpoint readPacked (n : nat) (packed : list Z) : M (list Z) :=
  match n with
  | O => ret packed
  | S n' => b <- Transport.readByte ;; readPacked n' (packed ++ [b])
  end.

Definition readI16 : M Z :=
  packed <- readPacked 2 [] ;;
  lift (unpack16 packed).

Definition readI32 : M Z :=
  packed <- readPacked 4 [] ;;
  lift (unpack32 packed).

Definition readI64 : M Z :=
  packed <- readPacked 8 [] ;;
  lift (unpack64 packed).

Definition readMultiple (len : Z) : M (list Z) := Transport.read len.

Definition readMultipleAsString (len : Z) : M string :=
  bytes <- readMultiple len ;;
  ret (utf8.decode bytes).

Definition readString : M string :=
  size <- readI32 ;;
  bytes <- readMultiple size ;;
  ret (utf8.decode (map (fun b => b mod 256) bytes)).

Definition readBinary : M (list Z) :=
  size <- readI32 ;;
  readMultiple size.

(** The inner loop [for (j = 8; j; j -= 1)] of [readDouble]. *)
Fixpoint byteBits (j : nat) (byte : Z) (bits : list Z) : list Z :=
  match j with
  | O => bits
  | S j' => byteBits j' (byte .>> 1) (bits ++ [if JS.truthy (Z.rem byte 2) then 1 else 0])
  end.

(** The outer loop [for (i = bytes.length; i; i -= 1)], from the last
    byte to the first. *)
Definition bytesBits (bytes : list Z) : list Z :=
  fold_left (fun bits byte => byteBits 8 byte bits) (rev bytes) [].

Definition join (bits : list Z) : list ascii := map digitChar bits.

Definition readDouble : M double :=
  let ebits := 11 in
  let fbits := 52 in
  bytes <- readMultiple 8 ;;
  let bits := rev (bytesBits bytes) in
  let str := join bits in
  let bias := (1 .<< (ebits - 1)) - 1 in
  let s := if JS.truthy (parseInt (substring 0 1 str) 2) then -1 else 1 in
  let e := parseInt (substring 1 (1 + 11) str) 2 in
  let f := parseInt (substringFrom (1 + 11) str) 2 in
  if e =? (1 .<< ebits) - 1 then
    ret (if negb (f =? 0) then NaN else Infinite s)
  else if e >? 0 then ret (Normal s e f)
  else if negb (f =? 0) then ret (Subnormal s f)
  else ret (Zero s).

Definition readMessageBegin : M AnonReadMessageBeginReturn :=
  version <- readI32 ;;
  if version <? 0 then
    (* version & Thrift.TBinaryProtocol.VERSION_MASK !== Thrift.TBinaryProtocol.VERSION_1
       parses as  version & (VERSION_MASK !== VERSION_1) *)
    if JS.truthy (version .& JS.ofBool (JS.strictNe VERSION_MASK VERSION_1)) then
      throw MissingVersionIdentifier
    else
      let type := version .& TYPE_MASK in
      name <- readString ;;
      seqid <- readI32 ;;
      ret {| fname := name; mtype := type; rseqid := seqid |}
  else
    this <- this_ ;;
    if strictRead this then throw InvalidVersionIdentifier
    else
      name <- readMultipleAsString version ;;
      type <- readByte ;;
      seqid <- readI32 ;;
      ret {| fname := name; mtype := type; rseqid := seqid |}.

Definition readMessageEnd : M unit := ret tt.
Definition readStructBegin : M string := ret ""%string.
Definition readStructEnd : M unit := ret tt.

Definition readFieldBegin : M AnonReadFieldBeginReturn :=
  type <- readByte ;;
  if type =? Thrift.Type_.STOP then ret {| ftype := type; fid := 0 |}
  else
    id <- readI16 ;;
    ret {| ftype := type; fid := id |}.

Definition readFieldEnd : M string := ret ""%string.

Definition readMapBegin : M AnonReadMapBeginReturn :=
  ktype <- readByte ;;
  vtype <- readByte ;;
  size <- readI32 ;;
  ret {| ktype := ktype; vtype := vtype; msize := size |}.

Definition readMapEnd : M string := value <- readFieldEnd ;; ret value.

Definition readListBegin : M AnonReadColBeginReturn :=
  etype <- readByte ;;
  size <- readI32 ;;
  ret {| etype := etype; size := size |}.

Definition readListEnd : M string := value <- readFieldEnd ;; ret value.

Definition readSetBegin : M AnonReadColBeginReturn :=
  etype <- readByte ;;
  size <- readI32 ;;
  ret {| etype := etype; size := size |}.

Definition readSetEnd : M string := value <- readFieldEnd ;; ret value.

(** ** Skip traversal *)

(** What [skip] returns: [null], the object a scalar read returns, or
    nothing at all when no [case] matches the tag. *)
Inductive skipped : Type :=
| SkNull
| SkBool (value : bool)
| SkNumber (value : Z)
| SkDouble (value : double)
| SkString (value : string)
| SkUndefined.

(** The guard at the head of the map loop, for [i > 0]:
    [if (this.rstack.length > this.rpos[this.rpos.length - 1] + 1) this.rstack.pop()].
    Reading [length] of an undefined [rpos] throws; an [rpos] without a
    last element gives NaN, and the comparison is false. *)
Definition rstackGuard : M unit :=
  this <- this_ ;;
  match rpos this with
  | None => throw TypeError
  | Some rp =>
      match rev rp with
      | [] => ret tt
      | top :: _ =>
          if Z.of_nat (length (rstack this)) >? top + 1
          then fun this' =>
                 (Ok tt, {| transport := transport this'; strictRead := strictRead this';
                            strictWrite := strictWrite this';
                            rstack := removelast (rstack this'); rpos := rpos this' |})
          else ret tt
      end
  end.

(** Sequencing of computations that may run out of fuel ([None]). *)
Definition andThen {A B} (m : M (option A)) (k : A -> M (option B)) : M (option B) :=
  r <- m ;;
  match r with
  | None => ret None
  | Some a => k a
  end.

(** [skip]; the recursion and its three loops share one fuel, which
    bounds the number of calls and iterations.  [None] is reported when
    the fuel runs out, never by the code itself. *)
Fixpoint skip (fuel : nat) (type : Z) {struct fuel} : M (option skipped) :=
  match fuel with
  | O => ret None
  | S fuel' =>
      if type =? Thrift.Type_.STOP then ret (Some SkNull)
      else if type =? Thrift.Type_.BOOL then v <- readBool ;; ret (Some (SkBool v))
      else if type =? Thrift.Type_.BYTE then v <- readByte ;; ret (Some (SkNumber v))
      else if type =? Thrift.Type_.I16 then v <- readI16 ;; ret (Some (SkNumber v))
      else if type =? Thrift.Type_.I32 then v <- readI32 ;; ret (Some (SkNumber v))
      else if type =? Thrift.Type_.I64 then v <- readI64 ;; ret (Some (SkNumber v))
      else if type =? Thrift.Type_.DOUBLE then v <- readDouble ;; ret (Some (SkDouble v))
      else if type =? Thrift.Type_.STRING then v <- readString ;; ret (Some (SkString v))
      else if type =? Thrift.Type_.STRUCT then
        readStructBegin ;;
        andThen (skipFields fuel') (fun _ =>
        readStructEnd ;;
        ret (Some SkNull))
      else if type =? Thrift.Type_.MAP then
        r <- readMapBegin ;;
        andThen (skipEntries fuel' r 0) (fun _ =>
        readMapEnd ;;
        ret (Some SkNull))
      else if type =? Thrift.Type_.SET then
        r <- readSetBegin ;;
        andThen (skipElements fuel' r 0) (fun _ =>
        readSetEnd ;;
        ret (Some SkNull))
      else if type =? Thrift.Type_.LIST then
        r <- readListBegin ;;
        andThen (skipElements fuel' r 0) (fun _ =>
        readListEnd ;;
        ret (Some SkNull))
      else ret (Some SkUndefined)
  end

(** [while (true)] of the STRUCT case *)
with skipFields (fuel : nat) {struct fuel} : M (option unit) :=
  match fuel with
  | O => ret None
  | S fuel' =>
      r <- readFieldBegin ;;
      if ftype r =? Thrift.Type_.STOP then ret (Some tt)
      else
        andThen (skip fuel' (ftype r)) (fun _ =>
        readFieldEnd ;;
        skipFields fuel')
  end

(** [for (i = 0; i < ret.size; i++)] of the MAP case *)
with skipEntries (fuel : nat) (r : AnonReadMapBeginReturn) (i : Z) {struct fuel}
    : M (option unit) :=
  match fuel with
  | O => ret None
  | S fuel' =>
      if i <? msize r then
        (if i >? 0 then rstackGuard else ret tt) ;;
        andThen (skip fuel' (ktype r)) (fun _ =>
        andThen (skip fuel' (vtype r)) (fun _ =>
        skipEntries fuel' r (i + 1)))
      else ret (Some tt)
  end

(** [for (i = 0; i < ret.size; i++)] of the SET and LIST cases *)
with skipElements (fuel : nat) (r : AnonReadColBeginReturn) (i : Z) {struct fuel}
    : M (option unit) :=
  match fuel with
  | O => ret None
  | S fuel' =>
      if i <? size r then
        andThen (skip fuel' (etype r)) (fun _ =>
        skipElements fuel' r (i + 1))
      else ret (Some tt)
  end.

(** ** The older revision: bytes shifted inline *)

Module Legacy.

Definition writeI16 (i16 : Z) : M unit :=
  if (i16 <? 2 ^ 15 * -1) || (i16 >=? 2 ^ 16)
  then throw (IncorrectInt 2 i16)
  else
    Transport.writeByte (255 .& (i16 .>> 8)) ;;
    Transport.writeByte (255 .& i16).

Definition writeI32 (i32 : Z) : M unit :=
  if (i32 <=? 2 ^ 31 * -1) || (i32 >=? 2 ^ 31)
  then throw (IncorrectInt 4 i32)
  else
    Transport.writeByte (255 .& (i32 .>> 24)) ;;
    Transport.writeByte (255 .& (i32 .>> 16)) ;;
    Transport.writeByte (255 .& (i32 .>> 8)) ;;
    Transport.writeByte (255 .& i32).

(** [(this.readByte().value & 255) << 8 | this.readByte().value & 255] *)
Definition readI16 : M Z :=
  b0 <- readByte ;;
  b1 <- readByte ;;
  ret (((b0 .& 255) .<< 8) .| (b1 .& 255)).

Definition readI32 : M Z :=
  b0 <- readByte ;;
  b1 <- readByte ;;
  b2 <- readByte ;;
  b3 <- readByte ;;
  ret (((b0 .& 255) .<< 24) .| ((b1 .& 255) .<< 16) .| ((b2 .& 255) .<< 8) .| (b3 .& 255)).

(** [var hi = (i64 & 0xffffffff00000000 >> 32); var lo = i64 & 0x00000000ffffffff;]
    where [>>] binds tighter than [&]. *)
Definition writeI64 (i64 : Z) : M unit :=
  if (i64 <=? 2 ^ 63 * -1) || (i64 >=? 2 ^ 64)
  then throw (IncorrectInt 8 i64)
  else
    let hi := i64 .& (0xffffffff00000000 .>> 32) in
    let lo := i64 .& 0x00000000ffffffff in
    writeI32 hi ;;
    writeI32 lo.

Definition readI64 : M Z :=
  i32_1 <- readI32 ;;
  i32_2 <- readI32 ;;
  ret ((i32_1 .<< 32) .| i32_2).

End Legacy.

(** ** A caller of the frame writer

    The protocol knows no schema: a caller walks its value and issues the
    writer calls in the order of the grammar.  [tvalue] is a value with
    its wire types, [writeValue] is that walk.  Doubles are left out:
    [writeDouble] finds the exponent with [Math.log], which has no
    counterpart over the integers. *)

#[warnings="-register-all"]
Inductive tvalue : Type :=
| VBool (b : bool)
| VByte (v : Z)
| VI16 (v : Z)
| VI32 (v : Z)
| VI64 (v : Z)
| VString (s : string)
| VStruct (fields : list (Z * tvalue))
| VMap (keyType valType : Z) (entries : list (tvalue * tvalue))
| VSet (elemType : Z) (elems : list tvalue)
| VList (elemType : Z) (elems : list tvalue).

Definition typeOf (v : tvalue) : Z :=
  match v with
  | VBool _ => Thrift.Type_.BOOL
  | VByte _ => Thrift.Type_.BYTE
  | VI16 _ => Thrift.Type_.I16
  | VI32 _ => Thrift.Type_.I32
  | VI64 _ => Thrift.Type_.I64
  | VString _ => Thrift.Type_.STRING
  | VStruct _ => Thrift.Type_.STRUCT
  | VMap _ _ _ => Thrift.Type_.MAP
  | VSet _ _ => Thrift.Type_.SET
  | VList _ _ => Thrift.Type_.LIST
  end.

Fixpoint writeValue (v : tvalue) : M unit :=
  match v with
  | VBool b => writeBool b
  | VByte x => writeByte x
  | VI16 x => writeI16 x
  | VI32 x => writeI32 x
  | VI64 x => writeI64 x
  | VString s => writeString s
  | VStruct fields =>
      writeStructBegin "" ;;
      (fix writeFields (fs : list (Z * tvalue)) : M unit :=
         match fs with
         | [] => ret tt
         | (id, fv) :: rest =>
             writeFieldBegin "" (typeOf fv) id ;;
             writeValue fv ;;
             writeFieldEnd ;;
             writeFields rest
         end) fields ;;
      writeFieldStop ;;
      writeStructEnd
  | VMap keyType valType entries =>
      writeMapBegin keyType valType (Z.of_nat (length entries)) ;;
      (fix writeEntries (es : list (tvalue * tvalue)) : M unit :=
         match es with
         | [] => ret tt
         | (k, x) :: rest => writeValue k ;; writeValue x ;; writeEntries rest
         end) entries ;;
      writeMapEnd
  | VSet elemType elems =>
      writeSetBegin elemType (Z.of_nat (length elems)) ;;
      (fix writeElems (es : list tvalue) : M unit :=
         match es with
         | [] => ret tt
         | x :: rest => writeValue x ;; writeElems rest
         end) elems ;;
      writeSetEnd
  | VList elemType elems =>
      writeListBegin elemType (Z.of_nat (length elems)) ;;
      (fix writeElems (es : list tvalue) : M unit :=
         match es with
         | [] => ret tt
         | x :: rest => writeValue x ;; writeElems rest
         end) elems ;;
      writeListEnd
  end.

(** A protocol on a fresh channel, and one whose channel holds [bytes]
    to be read. *)
Definition fresh (strictRead strictWrite : bool) : protocol :=
  TBinaryProtocol {| sent := []; pending := [] |} (Some strictRead) (Some strictWrite).

Definition receiving (bytes : list Z) (strictRead strictWrite : bool) : protocol :=
  TBinaryProtocol {| sent := []; pending := bytes |} (Some strictRead) (Some strictWrite).

(** The bytes a computation leaves on the channel, and whether it returned. *)
Definition wire {A} (r : result A * protocol) : list Z := sent (transport (snd r)).
Definition unread {A} (r : result A * protocol) : list Z := pending (transport (snd r)).
Definition outcome {A} (r : result A * protocol) : result A := fst r.

(** ** Auxiliary definitions of the proofs *)

(** The integers [0 .. n-1], for facts settled by enumeration. *)
Definition upto (n : nat) : list Z := map Z.of_nat (seq 0 n).

(** The [k] hexadecimal digits of [n], most significant first, and the
    number a list of digits stands for. *)
Fixpoint digitsBE (k : nat) (n : Z) : list Z :=
  match k with
  | O => []
  | S k' => digitsBE k' (n / 16) ++ [n mod 16]
  end.

Definition valueBE (acc : Z) (ds : list Z) : Z :=
  fold_left (fun a d => a * 16 + d) ds acc.

(** Two hexadecimal digits make a byte. *)
Fixpoint pairBytes (ds : list Z) : list Z :=
  match ds with
  | a :: b :: rest => (a * 16 + b) :: pairBytes rest
  | _ => []
  end.

Definition isHexDigit (d : Z) : Prop := 0 <= d < 16.

(** The octets the transport stores for the numbers handed to it, and
    the protocol object after [bytes] were appended to the channel or
    after the pending input became [rest]. *)
Definition octets (bytes : list Z) : list Z := map (fun b => b mod 256) bytes.

Definition append (bytes : list Z) (this : protocol) : protocol :=
  withTransport {| sent := sent (transport this) ++ bytes;
                   pending := pending (transport this) |} this.

Definition consumed (rest : list Z) (this : protocol) : protocol :=
  withTransport {| sent := sent (transport this); pending := rest |} this.

Definition isOctet (b : Z) : Prop := 0 <= b < 256.

(** The three loops of [writeValue], by name. *)
Definition writeFields : list (Z * tvalue) -> M unit :=
  fix writeFields (fs : list (Z * tvalue)) : M unit :=
    match fs with
    | [] => ret tt
    | (id, fv) :: rest =>
        writeFieldBegin "" (typeOf fv) id ;;
        writeValue fv ;;
        writeFieldEnd ;;
        writeFields rest
    end.

Definition writeEntries : list (tvalue * tvalue) -> M unit :=
  fix writeEntries (es : list (tvalue * tvalue)) : M unit :=
    match es with
    | [] => ret tt
    | (k, x) :: rest => writeValue k ;; writeValue x ;; writeEntries rest
    end.

Definition writeElems : list tvalue -> M unit :=
  fix writeElems (es : list tvalue) : M unit :=
    match es with
    | [] => ret tt
    | x :: rest => writeValue x ;; writeElems rest
    end.

(** A value whose collections hold elements of the declared types and
    whose maps hold at most [maxEntries] entries. *)
Fixpoint wellTyped (maxEntries : nat) (v : tvalue) : bool :=
  match v with
  | VStruct fields =>
      (fix all (fs : list (Z * tvalue)) : bool :=
         match fs with
         | [] => true
         | (_, fv) :: rest => wellTyped maxEntries fv && all rest
         end) fields
  | VMap keyType valType entries =>
      (length entries <=? maxEntries)%nat &&
      (fix all (es : list (tvalue * tvalue)) : bool :=
         match es with
         | [] => true
         | (k, x) :: rest =>
             (typeOf k =? keyType) && (typeOf x =? valType) &&
             wellTyped maxEntries k && wellTyped maxEntries x && all rest
         end) entries
  | VSet elemType elems | VList elemType elems =>
      (fix all (es : list tvalue) : bool :=
         match es with
         | [] => true
         | x :: rest => (typeOf x =? elemType) && wellTyped maxEntries x && all rest
         end) elems
  | _ => true
  end.

(** Fuel that suffices to skip a value: one unit per call of [skip] and
    per turn of a loop. *)
Fixpoint fuelFor (v : tvalue) : nat :=
  match v with
  | VStruct fields =>
      (2 + (fix sum (fs : list (Z * tvalue)) : nat :=
             match fs with
             | [] => 0%nat
             | (_, fv) :: rest => (1 + fuelFor fv + sum rest)%nat
             end) fields)%nat
  | VMap _ _ entries =>
      (2 + (fix sum (es : list (tvalue * tvalue)) : nat :=
             match es with
             | [] => 0%nat
             | (k, x) :: rest => (1 + fuelFor k + fuelFor x + sum rest)%nat
             end) entries)%nat
  | VSet _ elems | VList _ elems =>
      (2 + (fix sum (es : list tvalue) : nat :=
             match es with
             | [] => 0%nat
             | x :: rest => (1 + fuelFor x + sum rest)%nat
             end) elems)%nat
  | _ => 1%nat
  end.


(** The inner loops of [wellTyped] and [fuelFor], by name. *)
Definition typedFields (maxEntries : nat) : list (Z * tvalue) -> bool :=
  fix all (fs : list (Z * tvalue)) : bool :=
    match fs with
    | [] => true
    | (_, fv) :: rest => wellTyped maxEntries fv && all rest
    end.

Definition typedEntries (maxEntries : nat) (keyType valType : Z)
    : list (tvalue * tvalue) -> bool :=
  fix all (es : list (tvalue * tvalue)) : bool :=
    match es with
    | [] => true
    | (k, x) :: rest =>
        (typeOf k =? keyType) && (typeOf x =? valType) &&
        wellTyped maxEntries k && wellTyped maxEntries x && all rest
    end.

Definition typedElems (maxEntries : nat) (elemType : Z) : list tvalue -> bool :=
  fix all (es : list tvalue) : bool :=
    match es with
    | [] => true
    | x :: rest => (typeOf x =? elemType) && wellTyped maxEntries x && all rest
    end.

Definition fuelFields : list (Z * tvalue) -> nat :=
  fix sum (fs : list (Z * tvalue)) : nat :=
    match fs with
    | [] => 0%nat
    | (_, fv) :: rest => (1 + fuelFor fv + sum rest)%nat
    end.

Definition fuelEntries : list (tvalue * tvalue) -> nat :=
  fix sum (es : list (tvalue * tvalue)) : nat :=
    match es with
    | [] => 0%nat
    | (k, x) :: rest => (1 + fuelFor k + fuelFor x + sum rest)%nat
    end.

Definition fuelElems : list tvalue -> nat :=
  fix sum (es : list tvalue) : nat :=
    match es with
    | [] => 0%nat
    | x :: rest => (1 + fuelFor x + sum rest)%nat
    end.

(** [skips m bytes]: on any protocol object whose pending input starts
    with [bytes], the traversal [m] returns (it does not throw and its
    fuel does not run out) and has consumed exactly [bytes]. *)
Definition skips {A} (m : M (option A)) (bytes : list Z) : Prop :=
  forall rest this,
    pending (transport this) = bytes ++ rest ->
    exists a, m this = (Ok (Some a), consumed rest this).

(** Whenever [m] returns, it has appended some bytes to the channel and
    changed nothing else, and the bytes satisfy [Q]. *)
Definition writes (m : M unit) (Q : list Z -> Prop) : Prop :=
  forall this this',
    m this = (Ok tt, this') -> exists bytes, this' = append bytes this /\ Q bytes.

(** The writer's bytes for [v] are skipped whole by [skip] on the tag of
    [v], with any fuel from [fuelFor v] on. *)
Definition skipsWritten (v : tvalue) : Prop :=
  writes (writeValue v)
         (fun bytes => forall fuel, (fuelFor v <= fuel)%nat ->
                       skips (skip fuel (typeOf v)) bytes).

(** The number a sequence of bytes stands for, most significant first. *)
Definition valueBytes (bytes : list Z) : Z :=
  fold_left (fun a b => a * 256 + b) bytes 0.

(** A number wrapped into the signed range of [bits] bits. *)
Definition wrapSigned (bits : Z) (v : Z) : Z :=
  (v + 2 ^ (bits - 1)) mod 2 ^ bits - 2 ^ (bits - 1).

(** [forward m]: whatever [m] returns or throws, it has sent nothing,
    left the flags and [rpos] alone and consumed a prefix of the pending
    input. *)
Definition forward {A} (m : M A) : Prop :=
  forall this r this',
    m this = (r, this') ->
    sent (transport this') = sent (transport this) /\
    strictRead this' = strictRead this /\
    strictWrite this' = strictWrite this /\
    rpos this' = rpos this /\
    exists prefix, pending (transport this) = prefix ++ pending (transport this').

(** [sending m]: whatever [m] returns or throws, it has consumed nothing
    and changed nothing but the bytes sent, which it only extended. *)
Definition sending {A} (m : M A) : Prop :=
  forall this r this',
    m this = (r, this') -> exists bytes, this' = append bytes this.

(** The eight bits of a byte, most significant first, and the number a
    list of bits stands for. *)
Definition msbBits (b : Z) : list Z :=
  [(b / 128) mod 2; (b / 64) mod 2; (b / 32) mod 2; (b / 16) mod 2;
   (b / 8) mod 2; (b / 4) mod 2; (b / 2) mod 2; b mod 2].

Definition valueBits (acc : Z) (bits : list Z) : Z :=
  fold_left (fun a d => a * 2 + d) bits acc.

Definition isBit (d : Z) : Prop := 0 <= d < 2.

Fixpoint listEqb (l1 l2 : list Z) : bool :=
  match l1, l2 with
  | [], [] => true
  | x :: r1, y :: r2 => (x =? y) && listEqb r1 r2
  | _, _ => false
  end.

(** The double [readDouble] makes of sign, exponent and fraction. *)
Definition decodeDouble (s e f : Z) : double :=
  if e =? 2047 then (if f =? 0 then Infinite s else NaN)
  else if 0 <? e then Normal s e f
  else if f =? 0 then Zero s
  else Subnormal s f.
(** * Properties *)

(** ** Sanity checks of the packers *)

Example u16_p16_m1 : u16 (p16 (-1)) = -1.
Proof. reflexivity. Qed.

Example u32_p32_min : u32 (p32 (-2147483647)) = -2147483647.
Proof. reflexivity. Qed.

Example p64_258 : p64 258 = [0; 0; 0; 0; 0; 0; 1; 2].
Proof. reflexivity. Qed.

Example p64_m2 : p64 (-2) = [255; 255; 255; 255; 255; 255; 255; 254].
Proof. reflexivity. Qed.

Example u64_p64_min : u64 (p64 int64min) = int64min.
Proof. reflexivity. Qed.

Example u64_p64_max : u64 (p64 int64max) = int64max.
Proof. reflexivity. Qed.


(** ** The 32-bit operators on small operands *)

Lemma ToInt32_small (x : Z) :
  -2147483648 <= x < 2147483648 -> JS.ToInt32 x = x.
Proof.
  intros Hx. unfold JS.ToInt32.
  rewrite Z.mod_small by lia. lia.
Qed.

Lemma ToInt32_range (x : Z) : -2147483648 <= JS.ToInt32 x < 2147483648.
Proof.
  unfold JS.ToInt32.
  pose proof (Z.mod_pos_bound (x + 2147483648) 4294967296 ltac:(lia)). lia.
Qed.

Lemma band_255 (x : Z) :
  -2147483648 <= x < 2147483648 -> x .& 0xff = x mod 256.
Proof.
  intros Hx. unfold JS.band.
  rewrite (ToInt32_small x) by assumption.
  rewrite (ToInt32_small 255) by lia.
  change 255 with (Z.ones 8).
  rewrite Z.land_ones by lia. reflexivity.
Qed.

Lemma sar_div (x k : Z) :
  -2147483648 <= x < 2147483648 -> 0 <= k < 32 -> x .>> k = x / 2 ^ k.
Proof.
  intros Hx Hk. unfold JS.sar, JS.shiftCount.
  rewrite (ToInt32_small x) by assumption.
  change 31 with (Z.ones 5).
  rewrite Z.land_ones by lia.
  rewrite (Z.mod_small k) by (simpl; lia).
  apply Z.shiftr_div_pow2. lia.
Qed.

Lemma shl_mul (x k : Z) :
  0 <= k < 32 -> -2147483648 <= x * 2 ^ k < 2147483648 -> x .<< k = x * 2 ^ k.
Proof.
  intros Hk Hx. unfold JS.shl, JS.shiftCount.
  change 31 with (Z.ones 5).
  rewrite Z.land_ones by lia.
  rewrite (Z.mod_small k) by (simpl; lia).
  assert (Hs : -2147483648 <= x < 2147483648).
  { assert (1 <= 2 ^ k) by (apply (Z.pow_le_mono_r 2 0 k); lia). nia. }
  rewrite (ToInt32_small x) by assumption.
  rewrite Z.shiftl_mul_pow2 by lia.
  apply ToInt32_small. assumption.
Qed.

(** Bits that do not overlap add up. *)
Lemma lor_disjoint (hi lo k : Z) :
  0 <= k -> 0 <= lo < 2 ^ k -> Z.lor (hi * 2 ^ k) lo = hi * 2 ^ k + lo.
Proof.
  intros Hk Hlo.
  assert (Hland : Z.land (hi * 2 ^ k) lo = 0).
  { apply Z.bits_inj'. intros n Hn.
    rewrite Z.land_spec, Z.bits_0.
    destruct (Z.lt_ge_cases n k) as [Hlt | Hge].
    - rewrite Z.mul_pow2_bits_low by lia. reflexivity.
    - destruct (Z.eq_dec lo 0) as [-> | Hnz].
      + rewrite Z.bits_0. apply andb_false_r.
      + rewrite (Z.bits_above_log2 lo n); [apply andb_false_r | lia |].
        apply Z.lt_le_trans with k; [| assumption].
        apply Z.log2_lt_pow2; lia. }
  rewrite <- Z.lxor_lor by assumption.
  symmetry. apply Z.add_nocarry_lxor. assumption.
Qed.

Lemma bor_add (x lo k : Z) :
  0 <= k < 32 -> 0 <= lo < 2 ^ k -> x mod 2 ^ k = 0 ->
  -2147483648 <= x < 2147483648 ->
  x .| lo = x + lo.
Proof.
  intros Hk Hlo Hdiv Hx. unfold JS.bor.
  assert (2 ^ k <= 2 ^ 31) by (apply Z.pow_le_mono_r; lia).
  rewrite (ToInt32_small x) by assumption.
  rewrite (ToInt32_small lo) by lia.
  assert (Hpos : 0 < 2 ^ k) by (apply Z.pow_pos_nonneg; lia).
  rewrite (Z.div_mod x (2 ^ k)) at 1 2 by lia.
  rewrite Hdiv, Z.add_0_r, (Z.mul_comm (2 ^ k)).
  apply lor_disjoint; lia.
Qed.

Lemma bor_0_l (x : Z) : -2147483648 <= x < 2147483648 -> 0 .| x = x.
Proof.
  intros Hx. unfold JS.bor.
  rewrite (ToInt32_small x) by assumption.
  reflexivity.
Qed.

(** *** Facts about single bytes, by enumeration *)

Lemma upto_cases (n : nat) (P : Z -> bool) :
  forallb P (upto n) = true -> forall b, 0 <= b < Z.of_nat n -> P b = true.
Proof.
  intros Hall b Hb.
  rewrite forallb_forall in Hall. apply Hall.
  unfold upto.
  replace b with (Z.of_nat (Z.to_nat b)) by lia.
  apply in_map, in_seq. lia.
Qed.

Lemma byte_cases (P : Z -> bool) :
  forallb P (upto 256) = true -> forall b, 0 <= b < 256 -> P b = true.
Proof. intros Hall b Hb. apply (upto_cases 256 P Hall). lia. Qed.

Lemma bxor_255 (b : Z) : 0 <= b < 256 -> b .^ 0xff = 255 - b.
Proof.
  intros Hb.
  apply Z.eqb_eq.
  apply (byte_cases (fun b => b .^ 0xff =? 255 - b)); [vm_compute; reflexivity | assumption].
Qed.

Lemma band_128 (b : Z) : 0 <= b < 256 -> JS.truthy (b .& 0x80) = (128 <=? b).
Proof.
  intros Hb.
  apply eqb_prop.
  apply (byte_cases (fun b => Bool.eqb (JS.truthy (b .& 0x80)) (128 <=? b)));
    [vm_compute; reflexivity | assumption].
Qed.

(** ** Round trip of the 16-bit and 32-bit packers *)

Lemma p16_bytes (v : Z) :
  -32768 <= v < 32768 -> p16 v = [(v / 256) mod 256; v mod 256].
Proof.
  intros Hv. unfold p16.
  rewrite (band_255 v) by lia.
  rewrite (sar_div v 8) by lia.
  change (2 ^ 8) with 256.
  rewrite band_255; [reflexivity |].
  pose proof (Z.div_le_mono (-32768) v 256 ltac:(lia) ltac:(lia)) as Hlo.
  pose proof (Z.div_le_mono v 32767 256 ltac:(lia) ltac:(lia)) as Hhi.
  change (-32768 / 256) with (-128) in Hlo.
  change (32767 / 256) with 127 in Hhi. lia.
Qed.

Lemma u16_bytes (a b : Z) :
  0 <= a < 256 -> 0 <= b < 256 ->
  u16 [a; b] = if 128 <=? a then a * 256 + b - 65536 else a * 256 + b.
Proof.
  intros Ha Hb. unfold u16, JS.index. cbn [nth].
  rewrite band_128 by assumption.
  destruct (128 <=? a) eqn:Hsign.
  - rewrite !bxor_255 by assumption.
    rewrite (shl_mul (255 - a) 8) by (change (2 ^ 8) with 256; lia).
    change (2 ^ 8) with 256.
    rewrite bor_0_l by lia.
    rewrite (bor_add ((255 - a) * 256) (255 - b) 8);
      [lia | lia | change (2 ^ 8) with 256; lia | | lia].
    change (2 ^ 8) with 256. apply Z.mod_mul. lia.
  - apply Z.leb_gt in Hsign.
    rewrite (shl_mul a 8) by (change (2 ^ 8) with 256; lia).
    change (2 ^ 8) with 256.
    rewrite bor_0_l by lia.
    rewrite (bor_add (a * 256) b 8);
      [lia | lia | change (2 ^ 8) with 256; lia | | lia].
    change (2 ^ 8) with 256. apply Z.mod_mul. lia.
Qed.

Lemma u16_p16 (v : Z) : -32768 <= v < 32768 -> u16 (p16 v) = v.
Proof.
  intros Hv.
  rewrite p16_bytes by assumption.
  rewrite u16_bytes by (apply Z.mod_pos_bound; lia).
  destruct (128 <=? (v / 256) mod 256) eqn:Hsign;
    [apply Z.leb_le in Hsign | apply Z.leb_gt in Hsign];
    Z.div_mod_to_equations; lia.
Qed.

Lemma shl_24 (a : Z) :
  0 <= a < 256 ->
  a .<< 24 = (if 128 <=? a then a - 256 else a) * 16777216.
Proof.
  intros Ha. unfold JS.shl.
  rewrite (ToInt32_small a) by lia.
  change (JS.shiftCount 24) with 24.
  rewrite Z.shiftl_mul_pow2 by lia.
  change (2 ^ 24) with 16777216.
  destruct (128 <=? a) eqn:Hsign;
    [apply Z.leb_le in Hsign | apply Z.leb_gt in Hsign].
  - unfold JS.ToInt32.
    replace (a * 16777216 + 2147483648)
      with ((a - 256) * 16777216 + 2147483648 + 1 * 4294967296) by lia.
    rewrite Z.mod_add by lia.
    rewrite Z.mod_small by lia. lia.
  - apply ToInt32_small. lia.
Qed.

Lemma u32_bytes (a b c d : Z) :
  0 <= a < 256 -> 0 <= b < 256 -> 0 <= c < 256 -> 0 <= d < 256 ->
  u32 [a; b; c; d] =
  (if 128 <=? a then a - 256 else a) * 16777216 + b * 65536 + c * 256 + d.
Proof.
  intros Ha Hb Hc Hd. unfold u32, JS.index. cbn [nth].
  rewrite shl_24 by assumption.
  rewrite (shl_mul b 16) by (change (2 ^ 16) with 65536; lia).
  rewrite (shl_mul c 8) by (change (2 ^ 8) with 256; lia).
  change (2 ^ 16) with 65536. change (2 ^ 8) with 256.
  set (h := if 128 <=? a then a - 256 else a).
  assert (Hh : -128 <= h < 128).
  { subst h. destruct (128 <=? a) eqn:Hsign;
      [apply Z.leb_le in Hsign | apply Z.leb_gt in Hsign]; lia. }
  rewrite bor_0_l by lia.
  rewrite (bor_add (h * 16777216) (b * 65536) 24);
    [| lia | change (2 ^ 24) with 16777216; lia
     | change (2 ^ 24) with 16777216; apply Z.mod_mul; lia | lia].
  rewrite (bor_add (h * 16777216 + b * 65536) (c * 256) 16);
    [| lia | change (2 ^ 16) with 65536; lia | | lia].
  2:{ change (2 ^ 16) with 65536.
      replace (h * 16777216 + b * 65536) with ((h * 256 + b) * 65536) by lia.
      apply Z.mod_mul. lia. }
  rewrite (bor_add (h * 16777216 + b * 65536 + c * 256) d 8);
    [reflexivity | lia | change (2 ^ 8) with 256; lia | | lia].
  change (2 ^ 8) with 256.
  replace (h * 16777216 + b * 65536 + c * 256)
    with ((h * 65536 + b * 256 + c) * 256) by lia.
  apply Z.mod_mul. lia.
Qed.

Lemma p32_bytes (v : Z) :
  -2147483648 <= v < 2147483648 ->
  p32 v = [(v / 16777216) mod 256; (v / 65536) mod 256; (v / 256) mod 256; v mod 256].
Proof.
  intros Hv. unfold p32.
  rewrite (band_255 v) by lia.
  rewrite (sar_div v 8), (sar_div v 16), (sar_div v 24) by lia.
  change (2 ^ 8) with 256. change (2 ^ 16) with 65536. change (2 ^ 24) with 16777216.
  rewrite !band_255; [reflexivity | | |]; Z.div_mod_to_equations; lia.
Qed.

Lemma u32_p32 (v : Z) : -2147483648 <= v < 2147483648 -> u32 (p32 v) = v.
Proof.
  intros Hv.
  rewrite p32_bytes by assumption.
  rewrite u32_bytes by (apply Z.mod_pos_bound; lia).
  destruct (128 <=? (v / 16777216) mod 256) eqn:Hsign;
    [apply Z.leb_le in Hsign | apply Z.leb_gt in Hsign];
    Z.div_mod_to_equations; lia.
Qed.

(** ** Hexadecimal strings and the 64-bit packer *)

Lemma digitValue_digitChar (d : Z) :
  isHexDigit d -> digitValue (digitChar d) = Some d.
Proof.
  intros Hd.
  pose proof (upto_cases 16
    (fun d => match digitValue (digitChar d) with Some x => x =? d | None => false end)
    eq_refl d Hd) as H.
  cbv beta in H.
  destruct (digitValue (digitChar d)) as [x |]; [| discriminate].
  apply Z.eqb_eq in H. congruence.
Qed.

Lemma digitChar_not_minus (d : Z) (s : list ascii) (radix : Z) :
  isHexDigit d -> parseInt (digitChar d :: s) radix = parseDigits radix 0 (digitChar d :: s).
Proof.
  intros Hd.
  assert (Hneq : Ascii.eqb (digitChar d) "-" = false).
  { pose proof (upto_cases 16 (fun d => negb (Ascii.eqb (digitChar d) "-")) eq_refl d Hd) as H.
    cbv beta in H. destruct (Ascii.eqb (digitChar d) "-"); [discriminate | reflexivity]. }
  unfold parseInt.
  destruct (digitChar d) as [b0 b1 b2 b3 b4 b5 b6 b7].
  destruct b0, b1, b2, b3, b4, b5, b6, b7; try reflexivity.
  discriminate Hneq.
Qed.

Lemma parseDigits_hex (ds : list Z) : forall acc,
  Forall isHexDigit ds -> parseDigits 16 acc (map digitChar ds) = valueBE acc ds.
Proof.
  induction ds as [| d ds IH]; intros acc Hds; [reflexivity |].
  inversion Hds as [| ? ? Hd Hrest]; subst.
  cbn [map parseDigits].
  rewrite digitValue_digitChar by assumption.
  assert (Hlt : (d <? 16) = true) by (apply Z.ltb_lt; apply Hd).
  rewrite Hlt. rewrite IH by assumption. reflexivity.
Qed.

Lemma parseInt_hex (ds : list Z) :
  Forall isHexDigit ds -> parseInt (map digitChar ds) 16 = valueBE 0 ds.
Proof.
  intros Hds. destruct ds as [| d ds]; [reflexivity |].
  inversion Hds; subst.
  cbn [map]. rewrite digitChar_not_minus by assumption.
  apply (parseDigits_hex (d :: ds)). assumption.
Qed.

Lemma digitsBE_length (k : nat) : forall n, length (digitsBE k n) = k.
Proof.
  induction k as [| k IH]; intros n; [reflexivity |].
  cbn [digitsBE]. rewrite length_app, IH. cbn. lia.
Qed.

Lemma digitsBE_hex (k : nat) : forall n, Forall isHexDigit (digitsBE k n).
Proof.
  induction k as [| k IH]; intros n; cbn [digitsBE]; [constructor |].
  apply Forall_app. split; [apply IH |].
  constructor; [| constructor].
  unfold isHexDigit. apply Z.mod_pos_bound. lia.
Qed.

Lemma valueBE_app (a b : list Z) (acc : Z) :
  valueBE acc (a ++ b) = valueBE (valueBE acc a) b.
Proof. unfold valueBE. apply fold_left_app. Qed.

Lemma valueBE_digitsBE (k : nat) : forall n acc,
  valueBE acc (digitsBE k n) = acc * 16 ^ Z.of_nat k + n mod 16 ^ Z.of_nat k.
Proof.
  induction k as [| k IH]; intros n acc.
  - cbn. rewrite Z.mod_1_r. lia.
  - cbn [digitsBE]. rewrite valueBE_app, IH. cbn [valueBE fold_left].
    rewrite Nat2Z.inj_succ, Z.pow_succ_r by lia.
    assert (Hpos : 0 < 16 ^ Z.of_nat k) by (apply Z.pow_pos_nonneg; lia).
    rewrite (Z.rem_mul_r n 16 (16 ^ Z.of_nat k)) by lia.
    lia.
Qed.

Lemma digitsBE_split (w : nat) : forall j n,
  digitsBE (j + w) n = digitsBE j (n / 16 ^ Z.of_nat w) ++ digitsBE w n.
Proof.
  induction w as [| w IH]; intros j n.
  - rewrite Nat.add_0_r. cbn. rewrite Z.div_1_r, app_nil_r. reflexivity.
  - rewrite Nat.add_succ_r. cbn [digitsBE].
    rewrite IH, <- app_assoc.
    rewrite Z.div_div by (try apply Z.pow_pos_nonneg; lia).
    rewrite Nat2Z.inj_succ, Z.pow_succ_r by lia.
    reflexivity.
Qed.

Lemma toStringDigits_hex (fuel : nat) : forall n,
  0 <= n < 2 ^ Z.of_nat (S fuel) ->
  exists k, toStringDigits fuel 16 n = map digitChar (digitsBE k n) /\ n < 16 ^ Z.of_nat k.
Proof.
  assert (Hone : forall n, 0 <= n < 16 ->
            [digitChar n] = map digitChar (digitsBE 1 n) /\ n < 16 ^ Z.of_nat 1).
  { intros n Hn. cbn [digitsBE app map]. rewrite Z.mod_small by lia.
    split; [reflexivity | cbn; lia]. }
  induction fuel as [| fuel IH]; intros n Hn.
  - exists 1%nat. cbn [toStringDigits]. apply Hone. cbn in Hn. lia.
  - cbn [toStringDigits].
    destruct (n <? 16) eqn:Hlt; [apply Z.ltb_lt in Hlt | apply Z.ltb_ge in Hlt].
    + exists 1%nat. apply Hone. lia.
    + destruct (IH (n / 16)) as (k & Hk & Hbound).
      { rewrite Nat2Z.inj_succ, Z.pow_succ_r in Hn by lia.
        split; [apply Z.div_pos; lia |].
        apply Z.div_lt_upper_bound; lia. }
      exists (S k). split.
      * rewrite Hk. cbn [digitsBE]. rewrite map_app. reflexivity.
      * rewrite Nat2Z.inj_succ, Z.pow_succ_r by lia.
        pose proof (Z.div_mod n 16 ltac:(lia)).
        pose proof (Z.mod_pos_bound n 16 ltac:(lia)). lia.
Qed.

Lemma toString_hex (n : Z) :
  0 <= n ->
  exists k, toString n 16 = map digitChar (digitsBE k n) /\ n < 16 ^ Z.of_nat k.
Proof.
  intros Hn. unfold toString.
  assert (Hnn : (n <? 0) = false) by (apply Z.ltb_ge; lia).
  rewrite Hnn.
  apply toStringDigits_hex.
  rewrite Nat2Z.inj_succ, Z2Nat.id by apply Z.log2_nonneg.
  destruct (Z.eq_dec n 0) as [-> | Hnz]; [cbn; lia |].
  pose proof (Z.log2_spec n ltac:(lia)). lia.
Qed.

(** [paddedHex] keeps the low [width] digits and pads with zeros. *)
Lemma paddedHex_digits (n : Z) (width : nat) :
  0 <= n -> (width <= 18)%nat -> paddedHex n width = map digitChar (digitsBE width n).
Proof.
  intros Hn Hw. unfold paddedHex, substringFrom.
  destruct (toString_hex n Hn) as (k & -> & Hk).
  change (str "000000000000000000") with (map digitChar (digitsBE 18 0)).
  rewrite <- (Z.div_small n (16 ^ Z.of_nat k)) at 1 2 by lia.
  rewrite <- map_app, <- digitsBE_split.
  rewrite length_map, digitsBE_length.
  replace (18 + k)%nat with ((18 + k - width) + width)%nat at 2 by lia.
  rewrite digitsBE_split, map_app.
  rewrite skipn_app.
  rewrite length_map, digitsBE_length, Nat.sub_diag.
  rewrite skipn_all2 by (rewrite length_map, digitsBE_length; lia).
  reflexivity.
Qed.

Lemma parseInt_pair (a b : Z) :
  isHexDigit a -> isHexDigit b -> parseInt [digitChar a; digitChar b] 16 = a * 16 + b.
Proof.
  intros Ha Hb.
  change [digitChar a; digitChar b] with (map digitChar [a; b]).
  rewrite parseInt_hex
    by (constructor; [assumption | constructor; [assumption | constructor]]).
  cbn. lia.
Qed.

Lemma paddedHex_pair (a b : Z) :
  isHexDigit a -> isHexDigit b -> paddedHex (a * 16 + b) 2 = [digitChar a; digitChar b].
Proof.
  unfold isHexDigit. intros Ha Hb.
  rewrite paddedHex_digits by lia.
  cbn [digitsBE app map].
  replace ((a * 16 + b) / 16) with a by (Z.div_mod_to_equations; lia).
  replace ((a * 16 + b) mod 16) with b by (Z.div_mod_to_equations; lia).
  rewrite (Z.mod_small a) by lia. reflexivity.
Qed.

(** The sixteen digits of a number below 2^56 start with two zeros. *)
Lemma digits16_small (m : Z) :
  0 <= m < 2 ^ 56 -> digitsBE 16 m = 0 :: 0 :: digitsBE 14 m.
Proof.
  intros Hm.
  change 16%nat with (2 + 14)%nat.
  rewrite digitsBE_split.
  change (16 ^ Z.of_nat 14) with (2 ^ 56).
  rewrite Z.div_small by assumption. reflexivity.
Qed.

Ltac list_of_length H :=
  repeat match type of H with
         | length ?l = _ =>
             destruct l as [| ? l]; cbn [length] in H; [discriminate H |];
             apply Nat.succ_inj in H
         end;
  match type of H with
  | length ?l = O => destruct l; [clear H | discriminate H]
  end.

Ltac split_Forall :=
  repeat match goal with
         | H : Forall _ (_ :: _) |- _ => inversion H; clear H; subst
         | H : Forall _ [] |- _ => clear H
         end.

(** What [p64]'s loop computes from sixteen digits: the eight bytes, each
    passed through [push]. *)
Lemma p64_loop_bytes (push : Z -> Z) (ds : list Z) :
  length ds = 16%nat -> Forall isHexDigit ds ->
  rev (p64_loop 8 (map digitChar ds) push []) = map push (pairBytes ds).
Proof.
  intros Hlen Hds.
  list_of_length Hlen. split_Forall.
  cbn [p64_loop substring firstn skipn map app rev Nat.mul Nat.sub Nat.add pairBytes].
  rewrite !parseInt_pair by assumption.
  reflexivity.
Qed.

(** The string [u64] rebuilds from bytes that [undo] maps back onto the
    digit pairs. *)
Lemma hexString_bytes (push undo : Z -> Z) :
  (forall a b, isHexDigit a -> isHexDigit b -> undo (push (a * 16 + b)) = a * 16 + b) ->
  forall (n : nat) (ds : list Z) (acc : list ascii),
    length ds = (2 * n)%nat -> Forall isHexDigit ds ->
    fold_left (fun hexString value => hexString ++ paddedHex (undo value) 2)
              (map push (pairBytes ds)) acc
    = acc ++ map digitChar ds.
Proof.
  intros Hundo. induction n as [| n IH]; intros ds acc Hlen Hds.
  - destruct ds; [| discriminate]. cbn. rewrite app_nil_r. reflexivity.
  - destruct ds as [| a [| b ds]]; try (cbn in Hlen; lia).
    split_Forall.
    cbn [pairBytes map fold_left].
    rewrite Hundo, paddedHex_pair by assumption.
    rewrite IH; [| cbn in Hlen; lia | assumption].
    rewrite <- app_assoc. reflexivity.
Qed.

Lemma p64_nonneg (v : Z) :
  0 <= v -> p64 v = pairBytes (digitsBE 16 v).
Proof.
  intros Hv. unfold p64.
  assert (Hnn : (v <? 0) = false) by (apply Z.ltb_ge; lia).
  rewrite Hnn, Z.abs_eq by lia.
  rewrite paddedHex_digits by lia.
  rewrite p64_loop_bytes by (apply digitsBE_length || apply digitsBE_hex).
  apply map_id.
Qed.

Lemma p64_neg (v : Z) :
  v < 0 -> p64 v = map (fun byte => byte .^ 0xff) (pairBytes (digitsBE 16 (- v - 1))).
Proof.
  intros Hv. unfold p64.
  assert (Hneg : (v <? 0) = true) by (apply Z.ltb_lt; lia).
  rewrite Hneg.
  replace (Z.abs (v + 1)) with (- v - 1) by lia.
  rewrite paddedHex_digits by lia.
  apply p64_loop_bytes; [apply digitsBE_length | apply digitsBE_hex].
Qed.

Lemma u64_p64 (v : Z) : int64min <= v <= int64max -> u64 (p64 v) = v.
Proof.
  unfold int64min, int64max. intros Hv.
  destruct (Z.lt_ge_cases v 0) as [Hneg | Hpos].
  - rewrite p64_neg by assumption.
    set (m := - v - 1).
    assert (Hm : 0 <= m < 2 ^ 56) by (subst m; change (2 ^ 56) with 72057594037927936; lia).
    unfold u64.
    rewrite (digits16_small m Hm) at 1.
    cbn [pairBytes map JS.index nth].
    change (JS.truthy (((0 * 16 + 0) .^ 0xff) .& parseInt (str "01111111") 2)) with true.
    cbv iota.
    rewrite (hexString_bytes (fun byte => byte .^ 0xff) (fun value => value .^ 0xff)) with (n := 8%nat);
      [| | apply digitsBE_length | apply digitsBE_hex].
    + cbn [app]. rewrite parseInt_hex by apply digitsBE_hex.
      rewrite valueBE_digitsBE.
      rewrite Z.mod_small by (change (16 ^ Z.of_nat 16) with 18446744073709551616;
                              change (2 ^ 56) with 72057594037927936 in Hm; lia).
      subst m. lia.
    + intros a b Ha Hb. unfold isHexDigit in Ha, Hb.
      rewrite (bxor_255 (a * 16 + b)) by lia.
      rewrite bxor_255 by lia. lia.
  - rewrite p64_nonneg by assumption.
    assert (Hm : 0 <= v < 2 ^ 56) by (change (2 ^ 56) with 72057594037927936; lia).
    unfold u64.
    rewrite (digits16_small v Hm) at 1.
    cbn [pairBytes JS.index nth].
    change (JS.truthy ((0 * 16 + 0) .& parseInt (str "01111111") 2)) with false.
    cbv iota.
    rewrite <- (map_id (pairBytes (digitsBE 16 v))).
    rewrite (hexString_bytes (fun byte => byte) (fun value => value)) with (n := 8%nat);
      [| reflexivity | apply digitsBE_length | apply digitsBE_hex].
    cbn [app]. rewrite parseInt_hex by apply digitsBE_hex.
    rewrite valueBE_digitsBE.
    rewrite Z.mod_small by (change (16 ^ Z.of_nat 16) with 18446744073709551616;
                            change (2 ^ 56) with 72057594037927936 in Hm; lia).
    lia.
Qed.

Lemma p64_length (v : Z) : length (p64 v) = 8%nat.
Proof.
  assert (Hpairs : forall m, length (pairBytes (digitsBE 16 m)) = 8%nat).
  { intros m. pose proof (digitsBE_length 16 m) as Hlen.
    destruct (digitsBE 16 m) as [| ? l]; [discriminate Hlen |].
    cbn [length] in Hlen. apply Nat.succ_inj in Hlen.
    list_of_length Hlen. reflexivity. }
  destruct (Z.lt_ge_cases v 0) as [Hneg | Hpos].
  - rewrite p64_neg by assumption. rewrite length_map. apply Hpairs.
  - rewrite p64_nonneg by assumption. apply Hpairs.
Qed.

(** ** Which values the packers accept *)

Lemma pack16_accepts (v : Z) :
  pack16 v = if (int16min <=? v) && (v <=? int16max) then Ok (p16 v) else Throw (OutOfRange 2 v).
Proof.
  unfold pack16.
  destruct (v <? int16min) eqn:Hlo; destruct (v >? int16max) eqn:Hhi;
    destruct (int16min <=? v) eqn:Hlo'; destruct (v <=? int16max) eqn:Hhi';
    try reflexivity; lia.
Qed.

Lemma pack32_accepts (v : Z) :
  pack32 v = if (int32min <=? v) && (v <=? int32max) then Ok (p32 v) else Throw (OutOfRange 4 v).
Proof.
  unfold pack32.
  destruct (v <? int32min) eqn:Hlo; destruct (v >? int32max) eqn:Hhi;
    destruct (int32min <=? v) eqn:Hlo'; destruct (v <=? int32max) eqn:Hhi';
    try reflexivity; lia.
Qed.

Lemma pack64_accepts (v : Z) :
  pack64 v = if (int64min <=? v) && (v <=? int64max) then Ok (p64 v) else Throw (OutOfRange 8 v).
Proof.
  unfold pack64.
  destruct (v <? int64min) eqn:Hlo; destruct (v >? int64max) eqn:Hhi;
    destruct (int64min <=? v) eqn:Hlo'; destruct (v <=? int64max) eqn:Hhi';
    try reflexivity; lia.
Qed.

Ltac accepted H :=
  match type of H with
  | (if ?c then _ else _) = Ok _ =>
      let Hc := fresh "Hrange" in
      destruct c eqn:Hc; [| discriminate H];
      apply andb_prop in Hc; destruct Hc as [?Hlo ?Hhi];
      apply Z.leb_le in Hlo; apply Z.leb_le in Hhi;
      injection H as <-
  end.

(** C3. Round trip of the width packers: whatever [pack16], [pack32] or
    [pack64] accepts and packs, the unpacker of the same width gives
    back. *)
Theorem unpack_pack_roundtrip (v : Z) :
  (forall bytes, pack16 v = Ok bytes -> unpack16 bytes = Ok v) /\
  (forall bytes, pack32 v = Ok bytes -> unpack32 bytes = Ok v) /\
  (forall bytes, pack64 v = Ok bytes -> unpack64 bytes = Ok v).
Proof.
  split; [| split]; intros bytes Hpack.
  - rewrite pack16_accepts in Hpack. accepted Hpack.
    unfold int16min, int16max in *.
    unfold unpack16. change (length (p16 v)) with 2%nat. cbn [Z.of_nat Z.eqb Pos.eqb negb].
    rewrite u16_p16 by lia. reflexivity.
  - rewrite pack32_accepts in Hpack. accepted Hpack.
    unfold int32min, int32max in *.
    unfold unpack32. change (length (p32 v)) with 4%nat. cbn [Z.of_nat Z.eqb Pos.eqb negb].
    rewrite u32_p32 by lia. reflexivity.
  - rewrite pack64_accepts in Hpack. accepted Hpack.
    unfold unpack64. rewrite p64_length. cbn [Z.of_nat Z.eqb Pos.eqb negb].
    rewrite u64_p64 by lia. reflexivity.
Qed.

Lemma unpack_pack_roundtrip_witness :
  (unpack16 [255; 251] = Ok (-5)) /\
  (unpack32 [255; 255; 255; 251] = Ok (-5)) /\
  (unpack64 [255; 255; 255; 255; 255; 255; 255; 251] = Ok (-5)).
Proof.
  destruct (unpack_pack_roundtrip (-5)) as (H16 & H32 & H64).
  split; [| split].
  - apply H16. reflexivity.
  - apply H32. reflexivity.
  - apply H64. reflexivity.
Defined.

(** ** Range checks *)

(** The accepted range of each packer is symmetric: from [-max] to [max]. *)
Lemma pack_accepted_range (v : Z) :
  ((exists bytes, pack16 v = Ok bytes) <-> -32767 <= v <= 32767) /\
  ((exists bytes, pack32 v = Ok bytes) <-> -2147483647 <= v <= 2147483647) /\
  ((exists bytes, pack64 v = Ok bytes) <-> -9007199254740991 <= v <= 9007199254740991).
Proof.
  rewrite pack16_accepts, pack32_accepts, pack64_accepts.
  unfold int16min, int16max, int32min, int32max, int64min, int64max.
  split; [| split]; (split; [intros [bytes H] | intros Hv]).
  all: match goal with
       | H : (if ?c then _ else _) = _ |- _ =>
           destruct c eqn:Hc; [| discriminate H]; lia
       | |- exists _, (if ?c then _ else _) = _ =>
           replace c with true
             by (symmetry; apply andb_true_intro; split; apply Z.leb_le; lia);
           eexists; reflexivity
       end.
Qed.

(** C5. The 16-bit and 32-bit packers throw at the least two's-complement
    value of their width, [-2^15] and [-2^31], which their own encoder
    and decoder handle; at the greatest value they succeed and one above
    it they throw, and the 64-bit packer succeeds at both ends of the
    exact-integer range and throws one beyond each. *)
Theorem pack_minimum_rejected :
  pack16 (-32768) = Throw (OutOfRange 2 (-32768)) /\
  pack32 (-2147483648) = Throw (OutOfRange 4 (-2147483648)) /\
  u16 (p16 (-32768)) = -32768 /\
  u32 (p32 (-2147483648)) = -2147483648 /\
  pack16 32767 = Ok [127; 255] /\ pack16 32768 = Throw (OutOfRange 2 32768) /\
  pack32 2147483647 = Ok [127; 255; 255; 255] /\
  pack32 2147483648 = Throw (OutOfRange 4 2147483648) /\
  pack64 (- (2 ^ 53 - 1)) = Ok [255; 224; 0; 0; 0; 0; 0; 1] /\
  pack64 (- (2 ^ 53 - 1) - 1) = Throw (OutOfRange 8 (- (2 ^ 53))) /\
  pack64 (2 ^ 53 - 1) = Ok [0; 31; 255; 255; 255; 255; 255; 255] /\
  pack64 (2 ^ 53) = Throw (OutOfRange 8 (2 ^ 53)).
Proof. repeat split; reflexivity. Qed.

(** The older revision's [writeI16] accepts [-2^15] and sends its two
    bytes. *)
Lemma legacy_writeI16_minimum (sr sw : bool) :
  outcome (Legacy.writeI16 (-32768) (fresh sr sw)) = Ok tt /\
  wire (Legacy.writeI16 (-32768) (fresh sr sw)) = [128; 0].
Proof. split; reflexivity. Qed.

(** [writeByte] throws exactly outside the open interval (-2^31, 2^31). *)
Lemma writeByte_throws (v : Z) (this : protocol) :
  writeByte v this =
  if (v <=? -2147483648) || (v >=? 2147483648)
  then (Throw (IncorrectByte v), this)
  else Transport.writeByte v this.
Proof.
  unfold writeByte.
  change (2 ^ 31 * -1) with (-2147483648). change (2 ^ 31) with 2147483648.
  destruct ((v <=? -2147483648) || (v >=? 2147483648)); reflexivity.
Qed.

(** C6. [writeByte(128)] does not throw: 128 is no signed byte, yet the
    call hands it to the transport, which stores the octet. *)
Theorem writeByte_accepts_128 (this : protocol) :
  outcome (writeByte 128 this) = Ok tt /\
  wire (writeByte 128 this) = sent (transport this) ++ [128].
Proof. split; reflexivity. Qed.

(** ** End calls *)

(** C9. Every End call returns at once and leaves the protocol object,
    and with it the transport, as it found it. *)
Theorem end_calls_do_nothing (this : protocol) :
  writeMessageEnd this = (Ok tt, this) /\
  writeStructEnd this = (Ok tt, this) /\
  writeFieldEnd this = (Ok tt, this) /\
  writeMapEnd this = (Ok tt, this) /\
  writeListEnd this = (Ok tt, this) /\
  writeSetEnd this = (Ok tt, this) /\
  readMessageEnd this = (Ok tt, this) /\
  readStructEnd this = (Ok tt, this) /\
  readFieldEnd this = (Ok ""%string, this) /\
  readMapEnd this = (Ok ""%string, this) /\
  readListEnd this = (Ok ""%string, this) /\
  readSetEnd this = (Ok ""%string, this).
Proof. repeat split. Qed.

(** ** The two revisions of [readI16] *)

Lemma readByte_value (b : Z) (rest : list Z) (this : protocol) :
  0 <= b < 256 -> pending (transport this) = b :: rest ->
  readByte this =
  (Ok (if 128 <=? b then b - 256 else b),
   withTransport {| sent := sent (transport this); pending := rest |} this).
Proof.
  intros Hb Hpending. unfold readByte, bind, Transport.readByte. rewrite Hpending.
  destruct (b >? 0x7f) eqn:Hgt; destruct (128 <=? b) eqn:Hsign; try lia.
  - unfold ret. rewrite bxor_255 by lia. f_equal. f_equal. lia.
  - reflexivity.
Qed.

Lemma signed_octet_band (x : Z) :
  0 <= x < 256 -> (if 128 <=? x then x - 256 else x) .& 255 = x.
Proof.
  intros Hx. rewrite band_255.
  - destruct (128 <=? x); Z.div_mod_to_equations; lia.
  - destruct (128 <=? x); lia.
Qed.

(** X23. On two octets the older [readI16] answers the unsigned number,
    the packed revision the signed one: they agree exactly when the first
    octet is below 0x80. *)
Lemma readI16_revisions (a b : Z) (rest : list Z) (sr sw : bool) :
  0 <= a < 256 -> 0 <= b < 256 ->
  outcome (Legacy.readI16 (receiving (a :: b :: rest) sr sw)) = Ok (a * 256 + b) /\
  outcome (readI16 (receiving (a :: b :: rest) sr sw))
  = Ok (if 128 <=? a then a * 256 + b - 65536 else a * 256 + b).
Proof.
  intros Ha Hb. split.
  - unfold Legacy.readI16, bind, outcome.
    rewrite (readByte_value a (b :: rest)) by (assumption || reflexivity).
    rewrite (readByte_value b rest) by (assumption || reflexivity).
    cbn [fst ret].
    rewrite !signed_octet_band by assumption.
    rewrite (shl_mul a 8) by (change (2 ^ 8) with 256; lia).
    rewrite (bor_add (a * 2 ^ 8) b 8);
      [reflexivity | lia | change (2 ^ 8) with 256; lia
       | apply Z.mod_mul; lia | change (2 ^ 8) with 256; lia].
  - unfold outcome. cbn. rewrite <- (u16_bytes a b) by assumption. reflexivity.
Qed.

(** X24. On four octets the two revisions of [readI32] return the same
    number, so [readMessageBegin], whose text is the same in both, sees
    the same header. *)
Lemma readI32_revisions (a b c d : Z) (rest : list Z) (sr sw : bool) :
  0 <= a < 256 -> 0 <= b < 256 -> 0 <= c < 256 -> 0 <= d < 256 ->
  outcome (Legacy.readI32 (receiving (a :: b :: c :: d :: rest) sr sw))
  = outcome (readI32 (receiving (a :: b :: c :: d :: rest) sr sw)).
Proof.
  intros Ha Hb Hc Hd.
  unfold Legacy.readI32, bind, outcome.
  rewrite (readByte_value a (b :: c :: d :: rest)) by (assumption || reflexivity).
  rewrite (readByte_value b (c :: d :: rest)) by (assumption || reflexivity).
  rewrite (readByte_value c (d :: rest)) by (assumption || reflexivity).
  rewrite (readByte_value d rest) by (assumption || reflexivity).
  cbn [fst ret]. rewrite !signed_octet_band by assumption.
  cbn. unfold u32. cbn [JS.index nth].
  rewrite (bor_0_l (a .<< 24)) by apply ToInt32_range.
  reflexivity.
Qed.

(** C10. On the octets [0xff 0xff] the older revision's [readI16]
    returns 65535 where the packed revision returns -1. *)
Theorem readI16_revisions_differ (sr sw : bool) :
  outcome (Legacy.readI16 (receiving [255; 255] sr sw)) = Ok 65535 /\
  outcome (readI16 (receiving [255; 255] sr sw)) = Ok (-1).
Proof. split; reflexivity. Qed.

(** ** Runs of the writer and of the reader *)

Lemma append_nil (this : protocol) : append [] this = this.
Proof.
  destruct this as [[s p] sr sw rs rp]. unfold append, withTransport. cbn.
  rewrite app_nil_r. reflexivity.
Qed.

Lemma append_append (a b : list Z) (this : protocol) :
  append b (append a this) = append (a ++ b) this.
Proof. unfold append, withTransport. cbn. rewrite app_assoc. reflexivity. Qed.

Lemma forEach_writeByte (bytes : list Z) : forall this,
  forEach bytes Transport.writeByte this = (Ok tt, append (octets bytes) this).
Proof.
  induction bytes as [| b bytes IH]; intros this.
  - cbn. rewrite append_nil. reflexivity.
  - cbn [forEach]. unfold bind at 1.
    change (Transport.writeByte b this) with (Ok tt, append [b mod 256] this).
    cbv beta iota.
    rewrite IH, append_append. reflexivity.
Qed.

Lemma writeI32_run (v : Z) (this : protocol) :
  writeI32 v this =
  if (int32min <=? v) && (v <=? int32max)
  then (Ok tt, append (octets (p32 v)) this)
  else (Throw (OutOfRange 4 v), this).
Proof.
  unfold writeI32, bind, lift. rewrite pack32_accepts.
  destruct ((int32min <=? v) && (v <=? int32max)); [| reflexivity].
  apply forEach_writeByte.
Qed.

Lemma writeI16_run (v : Z) (this : protocol) :
  writeI16 v this =
  if (int16min <=? v) && (v <=? int16max)
  then (Ok tt, append (octets (p16 v)) this)
  else (Throw (OutOfRange 2 v), this).
Proof.
  unfold writeI16, bind, lift. rewrite pack16_accepts.
  destruct ((int16min <=? v) && (v <=? int16max)); [| reflexivity].
  apply forEach_writeByte.
Qed.

Lemma writeI64_run (v : Z) (this : protocol) :
  writeI64 v this =
  if (int64min <=? v) && (v <=? int64max)
  then (Ok tt, append (octets (p64 v)) this)
  else (Throw (OutOfRange 8 v), this).
Proof.
  unfold writeI64, bind, lift. rewrite pack64_accepts.
  destruct ((int64min <=? v) && (v <=? int64max)); [| reflexivity].
  apply forEach_writeByte.
Qed.

Lemma writeByte_run (v : Z) (this : protocol) :
  writeByte v this =
  if (v <=? -2147483648) || (v >=? 2147483648)
  then (Throw (IncorrectByte v), this)
  else (Ok tt, append [v mod 256] this).
Proof. rewrite writeByte_throws. reflexivity. Qed.

Lemma writeString_run (s : string) (this : protocol) :
  let bytes := utf8.encode s in
  let len := Z.of_nat (length bytes) in
  writeString s this =
  if (int32min <=? len) && (len <=? int32max)
  then (Ok tt, append (octets (p32 len) ++ octets bytes) this)
  else (Throw (OutOfRange 4 len), this).
Proof.
  intros bytes len. unfold writeString, bind. fold bytes. fold len.
  rewrite writeI32_run.
  destruct ((int32min <=? len) && (len <=? int32max)); [| reflexivity].
  change (Transport.write bytes (append (octets (p32 len)) this))
    with (Ok tt, append (octets bytes) (append (octets (p32 len)) this)).
  rewrite append_append. reflexivity.
Qed.

Lemma octets_p32 (v : Z) : -2147483648 <= v < 2147483648 -> octets (p32 v) = p32 v.
Proof.
  intros Hv. rewrite p32_bytes by assumption.
  unfold octets. cbn [map]. rewrite !Z.mod_mod by lia. reflexivity.
Qed.

Lemma octets_p16 (v : Z) : -32768 <= v < 32768 -> octets (p16 v) = p16 v.
Proof.
  intros Hv. rewrite p16_bytes by assumption.
  unfold octets. cbn [map]. rewrite !Z.mod_mod by lia. reflexivity.
Qed.

Lemma consumed_consumed (r1 r2 : list Z) (this : protocol) :
  consumed r2 (consumed r1 this) = consumed r2 this.
Proof. reflexivity. Qed.

Lemma consumed_same (this : protocol) :
  consumed (pending (transport this)) this = this.
Proof. destruct this as [[s p] sr sw rs rp]. reflexivity. Qed.

Lemma readPacked_run (n : nat) : forall bytes acc rest this,
  length bytes = n -> pending (transport this) = bytes ++ rest ->
  readPacked n acc this = (Ok (acc ++ bytes), consumed rest this).
Proof.
  induction n as [| n IH]; intros bytes acc rest this Hlen Hpending.
  - destruct bytes; [| discriminate]. cbn in Hpending. cbn [readPacked].
    unfold ret. rewrite app_nil_r, <- Hpending, consumed_same. reflexivity.
  - destruct bytes as [| b bytes]; [discriminate |].
    cbn [readPacked]. unfold bind at 1. unfold Transport.readByte.
    rewrite Hpending. cbn [app].
    fold (consumed (bytes ++ rest) this).
    rewrite (IH bytes (acc ++ [b]) rest); [| cbn in Hlen; lia | reflexivity].
    rewrite <- app_assoc. reflexivity.
Qed.

Lemma readI32_p32 (v : Z) (rest : list Z) (this : protocol) :
  -2147483648 <= v < 2147483648 ->
  pending (transport this) = p32 v ++ rest ->
  readI32 this = (Ok v, consumed rest this).
Proof.
  intros Hv Hpending. unfold readI32, bind.
  rewrite (readPacked_run 4 (p32 v) [] rest this eq_refl Hpending).
  cbn [app]. unfold lift, unpack32.
  change (length (p32 v)) with 4%nat. cbn [Z.of_nat Z.eqb Pos.eqb negb].
  rewrite u32_p32 by assumption. reflexivity.
Qed.

(** ** Messages *)

(** The test that guards [MissingVersionIdentifier] is the parity of the
    header: the comparison of the two constants is evaluated first, and
    its value, true, is what the header is masked with. *)
Lemma version_test_is_parity (version : Z) :
  -2147483648 <= version < 2147483648 ->
  JS.truthy (version .& JS.ofBool (JS.strictNe VERSION_MASK VERSION_1)) = Z.odd version.
Proof.
  intros Hv.
  change (JS.ofBool (JS.strictNe VERSION_MASK VERSION_1)) with (Z.ones 1).
  unfold JS.band. rewrite (ToInt32_small version) by assumption.
  change (JS.ToInt32 (Z.ones 1)) with (Z.ones 1).
  rewrite Z.land_ones by lia. change (2 ^ 1) with 2.
  rewrite Zmod_odd. unfold JS.truthy.
  destruct (Z.odd version); reflexivity.
Qed.

(** C7. A message written without the version header starts with the
    length of its name, which is not negative; a strict reader throws
    [InvalidVersionIdentifier] on it, whatever follows. *)
Theorem nonstrict_message_rejected_by_strict_reader
    (name : string) (type seqid : Z) (sr sw : bool) (this' : protocol) (rest : list Z) :
  writeMessageBegin name type seqid (fresh sr false) = (Ok tt, this') ->
  outcome (readMessageBegin (receiving (sent (transport this') ++ rest) true sw))
  = Throw InvalidVersionIdentifier.
Proof.
  intros Hwrite.
  unfold writeMessageBegin in Hwrite. unfold bind at 1 in Hwrite.
  cbn [this_ strictWrite fresh TBinaryProtocol] in Hwrite.
  unfold bind at 1 in Hwrite.
  pose proof (writeString_run name (fresh sr false)) as Hname. cbv zeta in Hname.
  rewrite Hname in Hwrite. clear Hname.
  set (len := Z.of_nat (length (utf8.encode name))) in *.
  destruct ((int32min <=? len) && (len <=? int32max)) eqn:Hrange; [| discriminate Hwrite].
  apply andb_prop in Hrange. destruct Hrange as [_ Hmax]. apply Z.leb_le in Hmax.
  unfold int32max in Hmax.
  assert (Hlen : 0 <= len) by (subst len; lia).
  rewrite octets_p32 in Hwrite by lia.
  unfold bind at 1 in Hwrite. rewrite writeByte_run in Hwrite.
  destruct ((type <=? -2147483648) || (type >=? 2147483648)); [discriminate Hwrite |].
  rewrite writeI32_run in Hwrite.
  destruct ((int32min <=? seqid) && (seqid <=? int32max)); [| discriminate Hwrite].
  injection Hwrite as <-.
  rewrite !append_append.
  unfold outcome, readMessageBegin. unfold bind at 1.
  rewrite (readI32_p32 len
             (octets (utf8.encode name) ++ [type mod 256] ++ octets (p32 seqid) ++ rest));
    [| lia | cbn; rewrite <- !app_assoc; reflexivity].
  assert (Hnn : (len <? 0) = false) by (apply Z.ltb_ge; assumption).
  rewrite Hnn. reflexivity.
Qed.

Lemma nonstrict_message_rejected_by_strict_reader_witness :
  outcome (readMessageBegin
             (receiving ([0; 0; 0; 4; 112; 105; 110; 103; 1; 0; 0; 0; 42] ++ [7]) true false))
  = Throw InvalidVersionIdentifier.
Proof.
  apply (nonstrict_message_rejected_by_strict_reader
           "ping" Thrift.MessageType.CALL 42 true false
           (snd (writeMessageBegin "ping" Thrift.MessageType.CALL 42 (fresh true false)))
           [7]).
  reflexivity.
Defined.

(** For a header that reads as a negative number, [readMessageBegin]
    throws [MissingVersionIdentifier] when the number is odd and goes on
    to the name and the sequence number when it is even; the upper half
    of the header plays no part. *)
Lemma readMessageBegin_versioned (version : Z) (rest : list Z) (sr sw : bool) :
  -2147483648 <= version < 0 ->
  readMessageBegin (receiving (p32 version ++ rest) sr sw) =
  if Z.odd version
  then (Throw MissingVersionIdentifier, receiving rest sr sw)
  else (name <- readString ;;
        seqid <- readI32 ;;
        ret {| fname := name; mtype := version .& TYPE_MASK; rseqid := seqid |})
       (receiving rest sr sw).
Proof.
  intros Hv. unfold readMessageBegin. unfold bind at 1.
  rewrite (readI32_p32 version rest) by (lia || reflexivity).
  assert (Hneg : (version <? 0) = true) by (apply Z.ltb_lt; lia).
  rewrite Hneg, version_test_is_parity by lia.
  destruct (Z.odd version); reflexivity.
Qed.

(** C1. The header [80 01 00 01] carries VERSION_1 in its upper half and
    the kind CALL in its low byte, and [readMessageBegin] throws
    [MissingVersionIdentifier] on it; the header [80 02 00 02] carries
    another version, and [readMessageBegin] accepts it and returns the
    message. *)
Theorem readMessageBegin_version_check (sr sw : bool) (rest : list Z) :
  let good := [0x80; 0x01; 0x00; 0x01] in
  let bad := [0x80; 0x02; 0x00; 0x02] in
  u32 good < 0 /\
  Z.land (u32 good mod 2 ^ 32) VERSION_MASK = VERSION_1 /\
  outcome (readMessageBegin (receiving (good ++ rest) sr sw))
  = Throw MissingVersionIdentifier /\
  u32 bad < 0 /\
  Z.land (u32 bad mod 2 ^ 32) VERSION_MASK <> VERSION_1 /\
  outcome (readMessageBegin
             (receiving (bad ++ [0; 0; 0; 4; 112; 105; 110; 103; 0; 0; 0; 42]) sr sw))
  = Ok {| fname := "ping"; mtype := 2; rseqid := 42 |}.
Proof.
  cbv zeta.
  split; [reflexivity |].
  split; [reflexivity |].
  split.
  { change [128; 1; 0; 1] with (p32 (-2147418111)).
    rewrite readMessageBegin_versioned by lia. reflexivity. }
  split; [reflexivity |].
  split; [discriminate |].
  change [128; 2; 0; 2] with (p32 (-2147352574)).
  rewrite readMessageBegin_versioned by lia. reflexivity.
Qed.

(** C2. In strict mode [writeMessageBegin("ping", CALL, 42)] sends the
    sixteen bytes of the scenario; [readMessageBegin] with strictRead
    throws [MissingVersionIdentifier] on them and returns no message. *)
Theorem ping_scenario (sr sw : bool) :
  let bytes := [0x80; 0x01; 0x00; 0x01; 0; 0; 0; 4; 112; 105; 110; 103; 0; 0; 0; 42] in
  utf8.encode "ping" = [112; 105; 110; 103] /\
  outcome (writeMessageBegin "ping" Thrift.MessageType.CALL 42 (fresh sr true)) = Ok tt /\
  wire (writeMessageBegin "ping" Thrift.MessageType.CALL 42 (fresh sr true)) = bytes /\
  outcome (readMessageBegin (receiving bytes true sw)) = Throw MissingVersionIdentifier.
Proof. cbv zeta. repeat split; reflexivity. Qed.

(** ** Skip *)

(** C4. A struct whose one field is a map of two byte entries is written
    by the frame writer without error; [skip(STRUCT)] on the bytes reads
    the first entry and then throws a TypeError at the head of the second
    turn of the map loop, with the second entry and the stop byte still
    unread. *)
Theorem skip_map_of_two_entries (sr sw : bool) (n : nat) (rest : list Z) :
  let v := VStruct [(1, VMap Thrift.Type_.BYTE Thrift.Type_.BYTE
                          [(VByte 1, VByte 10); (VByte 2, VByte 20)])] in
  let written := writeValue v (fresh sr sw) in
  outcome written = Ok tt /\
  wire written = [13; 0; 1; 3; 3; 0; 0; 0; 2; 1; 10; 2; 20; 0] /\
  outcome (skip (5 + n) Thrift.Type_.STRUCT (receiving (wire written ++ rest) sr sw))
  = Throw TypeError /\
  unread (skip (5 + n) Thrift.Type_.STRUCT (receiving (wire written ++ rest) sr sw))
  = [2; 20; 0] ++ rest.
Proof. cbv zeta. repeat split; reflexivity. Qed.

(** ** Skip consumes what the writer wrote, maps of two entries apart *)

Lemma tvalue_ind' (P : tvalue -> Prop)
    (Hbool : forall b, P (VBool b))
    (Hbyte : forall v, P (VByte v))
    (Hi16 : forall v, P (VI16 v))
    (Hi32 : forall v, P (VI32 v))
    (Hi64 : forall v, P (VI64 v))
    (Hstring : forall s, P (VString s))
    (Hstruct : forall fields, Forall (fun f => P (snd f)) fields -> P (VStruct fields))
    (Hmap : forall keyType valType entries,
        Forall (fun e => P (fst e) /\ P (snd e)) entries ->
        P (VMap keyType valType entries))
    (Hset : forall elemType elems, Forall P elems -> P (VSet elemType elems))
    (Hlist : forall elemType elems, Forall P elems -> P (VList elemType elems)) :
  forall v, P v.
Proof.
  fix IH 1.
  intros [b | x | x | x | x | s | fields | keyType valType entries
          | elemType elems | elemType elems].
  - apply Hbool.
  - apply Hbyte.
  - apply Hi16.
  - apply Hi32.
  - apply Hi64.
  - apply Hstring.
  - apply Hstruct. induction fields as [| [id fv] fields IHfields]; constructor.
    + apply IH.
    + apply IHfields.
  - apply Hmap. induction entries as [| [k x] entries IHentries]; constructor.
    + split; apply IH.
    + apply IHentries.
  - apply Hset. induction elems as [| x elems IHelems]; constructor.
    + apply IH.
    + apply IHelems.
  - apply Hlist. induction elems as [| x elems IHelems]; constructor.
    + apply IH.
    + apply IHelems.
Qed.

Lemma readByte_run (b : Z) (rest : list Z) (this : protocol) :
  isOctet b -> pending (transport this) = b :: rest ->
  readByte this = (Ok (if 128 <=? b then b - 256 else b), consumed rest this).
Proof. intros Hb Hpending. apply readByte_value; assumption. Qed.

(** A type tag or a count below 128 is read back as written. *)
Lemma readByte_tag (t : Z) (rest : list Z) (this : protocol) :
  0 <= t < 128 -> pending (transport this) = t mod 256 :: rest ->
  readByte this = (Ok t, consumed rest this).
Proof.
  intros Ht Hpending.
  rewrite (readByte_run (t mod 256) rest); [| unfold isOctet | assumption].
  - rewrite Z.mod_small by lia.
    assert (Hsmall : (128 <=? t) = false) by (apply Z.leb_gt; lia).
    rewrite Hsmall. reflexivity.
  - apply Z.mod_pos_bound. lia.
Qed.

Lemma readI16_p16 (v : Z) (rest : list Z) (this : protocol) :
  -32768 <= v < 32768 ->
  pending (transport this) = p16 v ++ rest ->
  readI16 this = (Ok v, consumed rest this).
Proof.
  intros Hv Hpending. unfold readI16, bind.
  rewrite (readPacked_run 2 (p16 v) [] rest this eq_refl Hpending).
  cbn [app]. unfold lift, unpack16.
  change (length (p16 v)) with 2%nat. cbn [Z.of_nat Z.eqb Pos.eqb negb].
  rewrite u16_p16 by assumption. reflexivity.
Qed.

Lemma readI64_run (bytes rest : list Z) (this : protocol) :
  length bytes = 8%nat ->
  pending (transport this) = bytes ++ rest ->
  readI64 this = (Ok (u64 bytes), consumed rest this).
Proof.
  intros Hlen Hpending. unfold readI64, bind.
  rewrite (readPacked_run 8 bytes [] rest this Hlen Hpending).
  cbn [app]. unfold lift, unpack64. rewrite Hlen. reflexivity.
Qed.

Lemma readMultiple_run (bytes rest : list Z) (this : protocol) :
  pending (transport this) = bytes ++ rest ->
  readMultiple (Z.of_nat (length bytes)) this = (Ok bytes, consumed rest this).
Proof.
  intros Hpending. unfold readMultiple, Transport.read.
  rewrite Hpending, length_app.
  assert (Hneg : (Z.of_nat (length bytes) <? 0) = false) by (apply Z.ltb_ge; lia).
  assert (Hshort : (Z.of_nat (length bytes + length rest) <? Z.of_nat (length bytes)) = false)
    by (apply Z.ltb_ge; lia).
  rewrite Hneg, Hshort, Nat2Z.id. cbn [orb].
  rewrite firstn_app, Nat.sub_diag, firstn_all. cbn [firstn]. rewrite app_nil_r.
  rewrite skipn_app, Nat.sub_diag, skipn_all. reflexivity.
Qed.

Lemma octets_length (bytes : list Z) : length (octets bytes) = length bytes.
Proof. apply length_map. Qed.

Lemma bind_Ok {A B} (m : M A) (k : A -> M B) (this this' : protocol) (b : B) :
  bind m k this = (Ok b, this') ->
  exists a this1, m this = (Ok a, this1) /\ k a this1 = (Ok b, this').
Proof.
  unfold bind. destruct (m this) as [[a | e] this1]; [eauto | discriminate].
Qed.

Lemma bind_run {A B} (m : M A) (k : A -> M B) (this this1 : protocol) (a : A) :
  m this = (Ok a, this1) -> bind m k this = k a this1.
Proof. intros Hm. unfold bind. rewrite Hm. reflexivity. Qed.

Lemma andThen_run {A B} (m : M (option A)) (k : A -> M (option B))
    (this this1 : protocol) (a : A) :
  m this = (Ok (Some a), this1) -> andThen m k this = k a this1.
Proof. intros Hm. unfold andThen, bind. rewrite Hm. reflexivity. Qed.

Lemma pending_consumed (rest : list Z) (this : protocol) :
  pending (transport (consumed rest this)) = rest.
Proof. reflexivity. Qed.

Lemma typeOf_tag (v : tvalue) : 0 < typeOf v < 128.
Proof. destruct v; split; reflexivity. Qed.

Lemma writeByte_Ok (v : Z) (this this' : protocol) :
  writeByte v this = (Ok tt, this') -> this' = append [v mod 256] this.
Proof.
  rewrite writeByte_run.
  destruct ((v <=? -2147483648) || (v >=? 2147483648)); [discriminate |].
  congruence.
Qed.

Lemma writeI16_Ok (v : Z) (this this' : protocol) :
  writeI16 v this = (Ok tt, this') ->
  this' = append (p16 v) this /\ -32768 <= v < 32768.
Proof.
  rewrite writeI16_run. intros H.
  destruct ((int16min <=? v) && (v <=? int16max)) eqn:Hrange; [| discriminate H].
  apply andb_prop in Hrange. destruct Hrange as [Hlo Hhi].
  apply Z.leb_le in Hlo. apply Z.leb_le in Hhi. unfold int16min, int16max in *.
  rewrite octets_p16 in H by lia. split; [congruence | lia].
Qed.

Lemma writeI32_Ok (v : Z) (this this' : protocol) :
  writeI32 v this = (Ok tt, this') ->
  this' = append (p32 v) this /\ -2147483648 <= v < 2147483648.
Proof.
  rewrite writeI32_run. intros H.
  destruct ((int32min <=? v) && (v <=? int32max)) eqn:Hrange; [| discriminate H].
  apply andb_prop in Hrange. destruct Hrange as [Hlo Hhi].
  apply Z.leb_le in Hlo. apply Z.leb_le in Hhi. unfold int32min, int32max in *.
  rewrite octets_p32 in H by lia. split; [congruence | lia].
Qed.

Lemma writeI64_Ok (v : Z) (this this' : protocol) :
  writeI64 v this = (Ok tt, this') -> this' = append (octets (p64 v)) this.
Proof.
  rewrite writeI64_run. intros H.
  destruct ((int64min <=? v) && (v <=? int64max)); [| discriminate H].
  congruence.
Qed.

Lemma writeString_Ok (s : string) (this this' : protocol) :
  writeString s this = (Ok tt, this') ->
  this' = append (p32 (Z.of_nat (length (utf8.encode s))) ++ octets (utf8.encode s)) this /\
  Z.of_nat (length (utf8.encode s)) < 2147483648.
Proof.
  pose proof (writeString_run s this) as Hrun. cbv zeta in Hrun. rewrite Hrun.
  intros H.
  destruct ((int32min <=? Z.of_nat (length (utf8.encode s))) &&
            (Z.of_nat (length (utf8.encode s)) <=? int32max)) eqn:Hrange; [| discriminate H].
  apply andb_prop in Hrange. destruct Hrange as [_ Hhi].
  apply Z.leb_le in Hhi. unfold int32max in Hhi.
  rewrite octets_p32 in H by lia. split; [congruence | lia].
Qed.

(** The header of a list or a set, written and read back. *)
Lemma collection_header (elemType n : Z) (this this' : protocol) :
  (writeByte elemType ;; writeI32 n)%js this = (Ok tt, this') ->
  this' = append ([elemType mod 256] ++ p32 n) this /\
  forall rest r, pending (transport r) = ([elemType mod 256] ++ p32 n) ++ rest ->
    exists et,
      (etype <- readByte ;; size <- readI32 ;; ret {| etype := etype; size := size |})%js r
      = (Ok {| etype := et; size := n |}, consumed rest r) /\
      (0 <= elemType < 128 -> et = elemType).
Proof.
  intros Hwrite.
  apply bind_Ok in Hwrite. destruct Hwrite as ([] & this1 & Htag & Hsize).
  apply writeByte_Ok in Htag. subst this1.
  apply writeI32_Ok in Hsize. destruct Hsize as [-> Hn].
  rewrite append_append. split; [reflexivity |].
  intros rest r Hpending.
  exists (if 128 <=? elemType mod 256 then elemType mod 256 - 256 else elemType mod 256).
  split.
  - erewrite bind_run;
      [| apply (readByte_run (elemType mod 256) (p32 n ++ rest));
         [unfold isOctet; apply Z.mod_pos_bound; lia
         | rewrite Hpending, <- app_assoc; reflexivity]].
    erewrite bind_run; [| apply (readI32_p32 n rest); [assumption | reflexivity]].
    reflexivity.
  - intros Htag. rewrite Z.mod_small by lia.
    assert (Hsmall : (128 <=? elemType) = false) by (apply Z.leb_gt; lia).
    rewrite Hsmall. reflexivity.
Qed.

Ltac some_fuel Hfuel fuel :=
  destruct fuel as [| fuel]; [cbn in Hfuel; lia |].

Lemma skipsWritten_bool (b : bool) : skipsWritten (VBool b).
Proof.
  intros this this' Hwrite. apply writeByte_Ok in Hwrite.
  eexists. split; [exact Hwrite |].
  intros fuel Hfuel rest r Hpending. some_fuel Hfuel fuel.
  change (skip (S fuel) (typeOf (VBool b)))
    with (v <- readBool ;; ret (Some (SkBool v)))%js.
  unfold readBool.
  erewrite bind_run;
    [| erewrite bind_run;
       [| apply (readByte_run ((if b then 1 else 0) mod 256) rest r);
          [destruct b; unfold isOctet; cbn; lia | exact Hpending]];
       reflexivity].
  eexists. reflexivity.
Qed.

Lemma skipsWritten_byte (x : Z) : skipsWritten (VByte x).
Proof.
  intros this this' Hwrite. apply writeByte_Ok in Hwrite.
  eexists. split; [exact Hwrite |].
  intros fuel Hfuel rest r Hpending. some_fuel Hfuel fuel.
  change (skip (S fuel) (typeOf (VByte x)))
    with (v <- readByte ;; ret (Some (SkNumber v)))%js.
  erewrite bind_run;
    [| apply (readByte_run (x mod 256) rest r);
       [unfold isOctet; apply Z.mod_pos_bound; lia | exact Hpending]].
  eexists. reflexivity.
Qed.

Lemma skipsWritten_i16 (x : Z) : skipsWritten (VI16 x).
Proof.
  intros this this' Hwrite. apply writeI16_Ok in Hwrite. destruct Hwrite as [Hwrite Hx].
  eexists. split; [exact Hwrite |].
  intros fuel Hfuel rest r Hpending. some_fuel Hfuel fuel.
  change (skip (S fuel) (typeOf (VI16 x)))
    with (v <- readI16 ;; ret (Some (SkNumber v)))%js.
  erewrite bind_run; [| apply (readI16_p16 x rest r); assumption].
  eexists. reflexivity.
Qed.

Lemma skipsWritten_i32 (x : Z) : skipsWritten (VI32 x).
Proof.
  intros this this' Hwrite. apply writeI32_Ok in Hwrite. destruct Hwrite as [Hwrite Hx].
  eexists. split; [exact Hwrite |].
  intros fuel Hfuel rest r Hpending. some_fuel Hfuel fuel.
  change (skip (S fuel) (typeOf (VI32 x)))
    with (v <- readI32 ;; ret (Some (SkNumber v)))%js.
  erewrite bind_run; [| apply (readI32_p32 x rest r); assumption].
  eexists. reflexivity.
Qed.

Lemma skipsWritten_i64 (x : Z) : skipsWritten (VI64 x).
Proof.
  intros this this' Hwrite. apply writeI64_Ok in Hwrite.
  eexists. split; [exact Hwrite |].
  intros fuel Hfuel rest r Hpending. some_fuel Hfuel fuel.
  change (skip (S fuel) (typeOf (VI64 x)))
    with (v <- readI64 ;; ret (Some (SkNumber v)))%js.
  erewrite bind_run;
    [| apply (readI64_run (octets (p64 x)) rest r);
       [rewrite octets_length; apply p64_length | exact Hpending]].
  eexists. reflexivity.
Qed.

Lemma skipsWritten_string (s : string) : skipsWritten (VString s).
Proof.
  intros this this' Hwrite. apply writeString_Ok in Hwrite. destruct Hwrite as [Hwrite Hlen].
  eexists. split; [exact Hwrite |].
  intros fuel Hfuel rest r Hpending. some_fuel Hfuel fuel.
  change (skip (S fuel) (typeOf (VString s)))
    with (v <- readString ;; ret (Some (SkString v)))%js.
  unfold readString.
  rewrite <- app_assoc in Hpending.
  erewrite bind_run;
    [| erewrite bind_run;
       [| apply (readI32_p32 (Z.of_nat (length (utf8.encode s)))
                 (octets (utf8.encode s) ++ rest) r); [lia | exact Hpending]];
       erewrite bind_run;
       [| rewrite <- (octets_length (utf8.encode s));
          apply (readMultiple_run (octets (utf8.encode s)) rest); reflexivity];
       reflexivity].
  eexists. reflexivity.
Qed.

Lemma bind_then {A B} (m : M A) (k : A -> M B) (this this1 : protocol) (a : A)
    (r : result B * protocol) :
  m this = (Ok a, this1) -> k a this1 = r -> bind m k this = r.
Proof. intros Hm Hk. rewrite (bind_run _ _ _ _ _ Hm). exact Hk. Qed.

Lemma andThen_then {A B} (m : M (option A)) (k : A -> M (option B))
    (this this1 : protocol) (a : A) (r : result (option B) * protocol) :
  m this = (Ok (Some a), this1) -> k a this1 = r -> andThen m k this = r.
Proof. intros Hm Hk. rewrite (andThen_run _ _ _ _ _ Hm). exact Hk. Qed.

(** The fields of a struct, and the stop byte after them. *)
Lemma fields_skipped (fields : list (Z * tvalue)) :
  Forall (fun f => skipsWritten (snd f)) fields ->
  writes (writeFields fields)
         (fun bytes => forall fuel, (fuelFields fields < fuel)%nat ->
                       skips (skipFields fuel) (bytes ++ [Thrift.Type_.STOP])).
Proof.
  induction fields as [| [id fv] fields IH]; intros Hall this this' Hwrite.
  - injection Hwrite as <-. exists []. split; [symmetry; apply append_nil |].
    intros fuel Hfuel rest r Hpending. some_fuel Hfuel fuel.
    exists tt. cbn [skipFields]. unfold readFieldBegin.
    eapply bind_then.
    { eapply bind_then; [apply (readByte_tag 0 rest r); [lia | exact Hpending] |].
      reflexivity. }
    reflexivity.
  - inversion Hall as [| ? ? Hfv Hrest]; subst. cbn [snd] in Hfv.
    change (writeFields ((id, fv) :: fields))
      with (writeFieldBegin "" (typeOf fv) id ;;
            writeValue fv ;; writeFieldEnd ;; writeFields fields)%js in Hwrite.
    apply bind_Ok in Hwrite. destruct Hwrite as ([] & t1 & Hbegin & Hwrite).
    unfold writeFieldBegin in Hbegin.
    apply bind_Ok in Hbegin. destruct Hbegin as ([] & t0 & Htag & Hid).
    apply writeByte_Ok in Htag. apply writeI16_Ok in Hid. destruct Hid as [Hid Hrange].
    apply bind_Ok in Hwrite. destruct Hwrite as ([] & t2 & Hvalue & Hwrite).
    apply bind_Ok in Hwrite. destruct Hwrite as (? & t3 & Hend & Hwrite).
    injection Hend as _ <-.
    destruct (Hfv _ _ Hvalue) as (b1 & -> & Hskip1).
    destruct (IH Hrest _ _ Hwrite) as (b2 & -> & Hskip2).
    subst t1 t0.
    pose proof (typeOf_tag fv) as Htype.
    exists ([typeOf fv mod 256] ++ p16 id ++ b1 ++ b2).
    split; [rewrite !append_append, <- ?app_assoc; reflexivity |].
    intros fuel Hfuel rest r Hpending. some_fuel Hfuel fuel.
    cbn [fuelFields] in Hfuel.
    rewrite <- !app_assoc in Hpending. cbn [app] in Hpending.
    assert (Hnostop : (typeOf fv =? Thrift.Type_.STOP) = false)
      by (apply Z.eqb_neq; unfold Thrift.Type_.STOP; lia).
    destruct (Hskip1 fuel ltac:(lia) (b2 ++ Thrift.Type_.STOP :: rest)
                (consumed (b1 ++ b2 ++ Thrift.Type_.STOP :: rest) r) eq_refl)
      as [s1 Hs1].
    destruct (Hskip2 fuel ltac:(lia) rest
                (consumed (b2 ++ Thrift.Type_.STOP :: rest) r)
                ltac:(cbn; rewrite <- app_assoc; reflexivity))
      as [u Hu].
    exists u. cbn [skipFields]. unfold readFieldBegin.
    eapply bind_then.
    { eapply bind_then;
        [apply (readByte_tag (typeOf fv)
                  (p16 id ++ b1 ++ b2 ++ Thrift.Type_.STOP :: rest) r);
         [lia | exact Hpending] |].
      rewrite Hnostop.
      eapply bind_then;
        [apply (readI16_p16 id (b1 ++ b2 ++ Thrift.Type_.STOP :: rest));
         [assumption | reflexivity] |].
      reflexivity. }
    cbn [ftype]. rewrite Hnostop.
    eapply andThen_then; [exact Hs1 |].
    eapply bind_then; [reflexivity |].
    exact Hu.
Qed.

(** The elements of a list or of a set, from the turn [i] of the loop on. *)
Lemma elems_skipped (elemType : Z) (elems : list tvalue) :
  Forall skipsWritten elems ->
  Forall (fun x => typeOf x = elemType) elems ->
  writes (writeElems elems)
         (fun bytes => forall fuel n i et, (fuelElems elems < fuel)%nat ->
                       i + Z.of_nat (length elems) = n ->
                       (elems <> [] -> et = elemType) ->
                       skips (skipElements fuel {| etype := et; size := n |} i) bytes).
Proof.
  induction elems as [| x elems IH]; intros Hall Htyped this this' Hwrite.
  - injection Hwrite as <-. exists []. split; [symmetry; apply append_nil |].
    intros fuel n i et Hfuel Hn _ rest r Hpending. some_fuel Hfuel fuel.
    cbn [skipElements size].
    assert (Hdone : (i <? n) = false) by (apply Z.ltb_ge; cbn in Hn; lia).
    rewrite Hdone. exists tt. unfold ret. cbn [app] in Hpending.
    rewrite <- Hpending, consumed_same. reflexivity.
  - inversion Hall as [| ? ? Hx Hrest]; subst.
    inversion Htyped as [| ? ? Htx Htrest]; subst.
    change (writeElems (x :: elems)) with (writeValue x ;; writeElems elems)%js in Hwrite.
    apply bind_Ok in Hwrite. destruct Hwrite as ([] & t1 & Hvalue & Hwrite).
    destruct (Hx _ _ Hvalue) as (b1 & -> & Hskip1).
    destruct (IH Hrest Htrest _ _ Hwrite) as (b2 & -> & Hskip2).
    exists (b1 ++ b2). split; [apply append_append |].
    intros fuel n i et Hfuel Hn Het rest r Hpending. some_fuel Hfuel fuel.
    rewrite (Het ltac:(discriminate)).
    cbn [fuelElems] in Hfuel. cbn [length] in Hn.
    assert (Hmore : (i <? n) = true) by (apply Z.ltb_lt; lia).
    rewrite <- app_assoc in Hpending.
    destruct (Hskip1 fuel ltac:(lia) (b2 ++ rest) r Hpending) as [s1 Hs1].
    destruct (Hskip2 fuel n (i + 1) (typeOf x) ltac:(lia) ltac:(lia)
                ltac:(intros Hne; destruct elems as [| y ?]; [congruence |];
                      inversion Htrest; subst; congruence)
                rest (consumed (b2 ++ rest) r) eq_refl) as [u Hu].
    exists u.
    cbn [skipElements size etype]. rewrite Hmore.
    eapply andThen_then; [exact Hs1 |]. exact Hu.
Qed.

(** No entry or one entry of a map: the guard on [rpos] is not reached. *)
Lemma entries_skipped (keyType valType : Z) (entries : list (tvalue * tvalue)) :
  Forall (fun e => skipsWritten (fst e) /\ skipsWritten (snd e)) entries ->
  Forall (fun e => typeOf (fst e) = keyType /\ typeOf (snd e) = valType) entries ->
  (length entries <= 1)%nat ->
  writes (writeEntries entries)
         (fun bytes => forall fuel kt vt, (fuelEntries entries < fuel)%nat ->
                       (entries <> [] -> kt = keyType /\ vt = valType) ->
                       skips (skipEntries fuel
                                {| ktype := kt; vtype := vt;
                                   msize := Z.of_nat (length entries) |} 0) bytes).
Proof.
  intros Hall Htyped Hlen this this' Hwrite.
  destruct entries as [| [k x] [| e entries]]; [| | cbn in Hlen; lia].
  - injection Hwrite as <-. exists []. split; [symmetry; apply append_nil |].
    intros fuel kt vt Hfuel _ rest r Hpending. some_fuel Hfuel fuel.
    exists tt. cbn [app] in Hpending. cbn [skipEntries msize length Z.of_nat Z.ltb Z.compare].
    unfold ret. rewrite <- Hpending, consumed_same. reflexivity.
  - inversion Hall as [| ? ? [Hk Hx] _]; subst.
    inversion Htyped as [| ? ? [Htk Htx] _]; subst. cbn [fst snd] in *.
    change (writeEntries [(k, x)])
      with (writeValue k ;; writeValue x ;; ret tt)%js in Hwrite.
    apply bind_Ok in Hwrite. destruct Hwrite as ([] & t1 & Hkey & Hwrite).
    apply bind_Ok in Hwrite. destruct Hwrite as ([] & t2 & Hval & Hwrite).
    injection Hwrite as <-.
    destruct (Hk _ _ Hkey) as (b1 & -> & Hskip1).
    destruct (Hx _ _ Hval) as (b2 & -> & Hskip2).
    exists (b1 ++ b2). split; [apply append_append |].
    intros fuel kt vt Hfuel Hkt rest r Hpending. some_fuel Hfuel fuel.
    destruct (Hkt ltac:(discriminate)) as [-> ->].
    cbn [fuelEntries] in Hfuel. some_fuel Hfuel fuel.
    rewrite <- app_assoc in Hpending.
    destruct (Hskip1 (S fuel) ltac:(lia) (b2 ++ rest) r Hpending) as [s1 Hs1].
    destruct (Hskip2 (S fuel) ltac:(lia) rest (consumed (b2 ++ rest) r) eq_refl) as [s2 Hs2].
    exists tt.
    change (skipEntries (S (S fuel))
              {| ktype := typeOf k; vtype := typeOf x; msize := Z.of_nat (length [(k, x)]) |} 0)
      with (ret tt ;;
            andThen (skip (S fuel) (typeOf k)) (fun _ =>
            andThen (skip (S fuel) (typeOf x)) (fun _ => ret (Some tt))))%js.
    eapply bind_then; [reflexivity |].
    eapply andThen_then; [exact Hs1 |].
    eapply andThen_then; [exact Hs2 |].
    reflexivity.
Qed.

(** The header of a map, written and read back. *)
Lemma map_header (keyType valType n : Z) (this this' : protocol) :
  writeMapBegin keyType valType n this = (Ok tt, this') ->
  this' = append ([keyType mod 256; valType mod 256] ++ p32 n) this /\
  forall rest r,
    pending (transport r) = ([keyType mod 256; valType mod 256] ++ p32 n) ++ rest ->
    exists kt vt,
      readMapBegin r = (Ok {| ktype := kt; vtype := vt; msize := n |}, consumed rest r) /\
      (0 <= keyType < 128 -> kt = keyType) /\
      (0 <= valType < 128 -> vt = valType).
Proof.
  intros Hwrite. unfold writeMapBegin in Hwrite.
  apply bind_Ok in Hwrite. destruct Hwrite as ([] & t1 & Hk & Hwrite).
  apply bind_Ok in Hwrite. destruct Hwrite as ([] & t2 & Hv & Hsize).
  apply writeByte_Ok in Hk. apply writeByte_Ok in Hv. subst t1 t2.
  apply writeI32_Ok in Hsize. destruct Hsize as [-> Hn].
  rewrite !append_append. split; [reflexivity |].
  intros rest r Hpending. cbn [app] in Hpending.
  assert (Hback : forall t, 0 <= t < 128 ->
            (if 128 <=? t mod 256 then t mod 256 - 256 else t mod 256) = t).
  { intros t Ht. rewrite Z.mod_small by lia.
    assert (Hsmall : (128 <=? t) = false) by (apply Z.leb_gt; lia).
    rewrite Hsmall. reflexivity. }
  exists (if 128 <=? keyType mod 256 then keyType mod 256 - 256 else keyType mod 256).
  exists (if 128 <=? valType mod 256 then valType mod 256 - 256 else valType mod 256).
  split; [| split; apply Hback].
  unfold readMapBegin.
  eapply bind_then;
    [apply (readByte_run (keyType mod 256) (valType mod 256 :: p32 n ++ rest) r);
     [unfold isOctet; apply Z.mod_pos_bound; lia | exact Hpending] |].
  eapply bind_then;
    [apply (readByte_run (valType mod 256) (p32 n ++ rest));
     [unfold isOctet; apply Z.mod_pos_bound; lia | reflexivity] |].
  eapply bind_then; [apply (readI32_p32 n rest); [assumption | reflexivity] |].
  reflexivity.
Qed.

Lemma typedFields_all (P : tvalue -> Prop) (fields : list (Z * tvalue)) :
  typedFields 1 fields = true ->
  Forall (fun f => wellTyped 1 (snd f) = true -> P (snd f)) fields ->
  Forall (fun f => P (snd f)) fields.
Proof.
  induction fields as [| [id fv] fields IH]; intros Htyped Hall; constructor.
  - inversion Hall; subst. cbn [typedFields] in Htyped.
    apply andb_prop in Htyped. cbn [snd] in *. tauto.
  - inversion Hall; subst. cbn [typedFields] in Htyped.
    apply andb_prop in Htyped. apply IH; tauto.
Qed.

Lemma typedElems_all (P : tvalue -> Prop) (elemType : Z) (elems : list tvalue) :
  typedElems 1 elemType elems = true ->
  Forall (fun x => wellTyped 1 x = true -> P x) elems ->
  Forall P elems /\ Forall (fun x => typeOf x = elemType) elems.
Proof.
  induction elems as [| x elems IH]; intros Htyped Hall; [split; constructor |].
  inversion Hall; subst. cbn [typedElems] in Htyped.
  apply andb_prop in Htyped. destruct Htyped as [Hx Hrest].
  apply andb_prop in Hx. destruct Hx as [Htype Hwt]. apply Z.eqb_eq in Htype.
  destruct (IH Hrest) as [HP HT]; [assumption |].
  split; constructor; auto.
Qed.

Lemma typedEntries_all (P : tvalue -> Prop) (keyType valType : Z)
    (entries : list (tvalue * tvalue)) :
  typedEntries 1 keyType valType entries = true ->
  Forall (fun e => (wellTyped 1 (fst e) = true -> P (fst e)) /\
                   (wellTyped 1 (snd e) = true -> P (snd e))) entries ->
  Forall (fun e => P (fst e) /\ P (snd e)) entries /\
  Forall (fun e => typeOf (fst e) = keyType /\ typeOf (snd e) = valType) entries.
Proof.
  induction entries as [| [k x] entries IH]; intros Htyped Hall; [split; constructor |].
  inversion Hall as [| ? ? [Hk Hx] Hrest]; subst. cbn [typedEntries] in Htyped.
  cbn [fst snd] in *.
  repeat match type of Htyped with
         | (_ && _) = true => apply andb_prop in Htyped; destruct Htyped as [Htyped ?]
         end.
  apply Z.eqb_eq in Htyped.
  match goal with H : (typeOf x =? valType) = true |- _ => apply Z.eqb_eq in H end.
  destruct IH as [HP HT]; [assumption | assumption |].
  split; constructor; cbn [fst snd]; auto.
Qed.

(** Skip consumes exactly the bytes the writer wrote for a value, as long
    as no map in it holds two entries or more. *)
Theorem skip_consumes_written (v : tvalue) :
  wellTyped 1 v = true -> skipsWritten v.
Proof.
  induction v as [b | x | x | x | x | s | fields IH | keyType valType entries IH
                  | elemType elems IH | elemType elems IH] using tvalue_ind';
    intros Hwt.
  - apply skipsWritten_bool.
  - apply skipsWritten_byte.
  - apply skipsWritten_i16.
  - apply skipsWritten_i32.
  - apply skipsWritten_i64.
  - apply skipsWritten_string.
  - (* struct *)
    change (typedFields 1 fields = true) in Hwt.
    pose proof (fields_skipped fields (typedFields_all _ _ Hwt IH)) as Hfields.
    intros this this' Hwrite.
    change (writeValue (VStruct fields))
      with (writeStructBegin "" ;; writeFields fields ;; writeFieldStop ;; writeStructEnd)%js
      in Hwrite.
    apply bind_Ok in Hwrite. destruct Hwrite as ([] & t1 & Hbegin & Hwrite).
    injection Hbegin as <-.
    apply bind_Ok in Hwrite. destruct Hwrite as ([] & t2 & Hbody & Hwrite).
    apply bind_Ok in Hwrite. destruct Hwrite as ([] & t3 & Hstop & Hend).
    injection Hend as <-.
    apply writeByte_Ok in Hstop.
    destruct (Hfields _ _ Hbody) as (b & -> & Hskip). subst t3.
    exists (b ++ [Thrift.Type_.STOP]). split; [apply append_append |].
    intros fuel Hfuel rest r Hpending. some_fuel Hfuel fuel.
    change (fuelFor (VStruct fields)) with (2 + fuelFields fields)%nat in Hfuel.
    destruct (Hskip fuel ltac:(lia) rest r Hpending) as [u Hu].
    exists SkNull.
    change (skip (S fuel) (typeOf (VStruct fields)))
      with (readStructBegin ;;
            andThen (skipFields fuel) (fun _ => readStructEnd ;; ret (Some SkNull)))%js.
    eapply bind_then; [reflexivity |].
    eapply andThen_then; [exact Hu |]. reflexivity.
  - (* map *)
    change ((length entries <=? 1)%nat && typedEntries 1 keyType valType entries = true) in Hwt.
    apply andb_prop in Hwt. destruct Hwt as [Hlen Htyped]. apply Nat.leb_le in Hlen.
    destruct (typedEntries_all _ _ _ _ Htyped IH) as [Hall Htypes].
    intros this this' Hwrite.
    change (writeValue (VMap keyType valType entries))
      with (writeMapBegin keyType valType (Z.of_nat (length entries)) ;;
            writeEntries entries ;; writeMapEnd)%js in Hwrite.
    apply bind_Ok in Hwrite. destruct Hwrite as ([] & t1 & Hbegin & Hwrite).
    apply bind_Ok in Hwrite. destruct Hwrite as ([] & t2 & Hbody & Hend).
    injection Hend as <-.
    apply map_header in Hbegin. destruct Hbegin as [-> Hheader].
    destruct (entries_skipped keyType valType entries Hall Htypes Hlen _ _ Hbody)
      as (b & -> & Hskip).
    exists (([keyType mod 256; valType mod 256] ++ p32 (Z.of_nat (length entries))) ++ b).
    split; [apply append_append |].
    intros fuel Hfuel rest r Hpending. some_fuel Hfuel fuel.
    change (fuelFor (VMap keyType valType entries)) with (2 + fuelEntries entries)%nat in Hfuel.
    rewrite <- app_assoc in Hpending.
    destruct (Hheader (b ++ rest) r Hpending) as (kt & vt & Hread & Hkt & Hvt).
    destruct (Hskip fuel kt vt ltac:(lia)
                ltac:(intros Hne; destruct entries as [| e ?]; [congruence |];
                      inversion Htypes as [| ? ? [Htk Htx] _]; subst;
                      pose proof (typeOf_tag (fst e)); pose proof (typeOf_tag (snd e));
                      split; [apply Hkt | apply Hvt]; lia)
                rest (consumed (b ++ rest) r) eq_refl) as [u Hu].
    exists SkNull.
    change (skip (S fuel) (typeOf (VMap keyType valType entries)))
      with (r <- readMapBegin ;;
            andThen (skipEntries fuel r 0) (fun _ => readMapEnd ;; ret (Some SkNull)))%js.
    eapply bind_then; [exact Hread |].
    eapply andThen_then; [exact Hu |]. reflexivity.
  - (* set *)
    change (typedElems 1 elemType elems = true) in Hwt.
    destruct (typedElems_all _ _ _ Hwt IH) as [Hall Htypes].
    intros this this' Hwrite.
    change (writeValue (VSet elemType elems))
      with ((writeByte elemType ;; writeI32 (Z.of_nat (length elems))) ;;
            writeElems elems ;; writeSetEnd)%js in Hwrite.
    apply bind_Ok in Hwrite. destruct Hwrite as ([] & t1 & Hbegin & Hwrite).
    apply bind_Ok in Hwrite. destruct Hwrite as ([] & t2 & Hbody & Hend).
    injection Hend as <-.
    apply collection_header in Hbegin. destruct Hbegin as [-> Hheader].
    destruct (elems_skipped elemType elems Hall Htypes _ _ Hbody) as (b & -> & Hskip).
    exists (([elemType mod 256] ++ p32 (Z.of_nat (length elems))) ++ b).
    split; [apply append_append |].
    intros fuel Hfuel rest r Hpending. some_fuel Hfuel fuel.
    change (fuelFor (VSet elemType elems)) with (2 + fuelElems elems)%nat in Hfuel.
    rewrite <- app_assoc in Hpending.
    destruct (Hheader (b ++ rest) r Hpending) as (et & Hread & Het).
    destruct (Hskip fuel (Z.of_nat (length elems)) 0 et ltac:(lia) ltac:(lia)
                ltac:(intros Hne; destruct elems as [| y ?]; [congruence |];
                      inversion Htypes; subst;
                      pose proof (typeOf_tag y); apply Het; lia)
                rest (consumed (b ++ rest) r) eq_refl) as [u Hu].
    exists SkNull.
    change (skip (S fuel) (typeOf (VSet elemType elems)))
      with (r <- readSetBegin ;;
            andThen (skipElements fuel r 0) (fun _ => readSetEnd ;; ret (Some SkNull)))%js.
    eapply bind_then; [exact Hread |].
    eapply andThen_then; [exact Hu |]. reflexivity.
  - (* list *)
    change (typedElems 1 elemType elems = true) in Hwt.
    destruct (typedElems_all _ _ _ Hwt IH) as [Hall Htypes].
    intros this this' Hwrite.
    change (writeValue (VList elemType elems))
      with ((writeByte elemType ;; writeI32 (Z.of_nat (length elems))) ;;
            writeElems elems ;; writeListEnd)%js in Hwrite.
    apply bind_Ok in Hwrite. destruct Hwrite as ([] & t1 & Hbegin & Hwrite).
    apply bind_Ok in Hwrite. destruct Hwrite as ([] & t2 & Hbody & Hend).
    injection Hend as <-.
    apply collection_header in Hbegin. destruct Hbegin as [-> Hheader].
    destruct (elems_skipped elemType elems Hall Htypes _ _ Hbody) as (b & -> & Hskip).
    exists (([elemType mod 256] ++ p32 (Z.of_nat (length elems))) ++ b).
    split; [apply append_append |].
    intros fuel Hfuel rest r Hpending. some_fuel Hfuel fuel.
    change (fuelFor (VList elemType elems)) with (2 + fuelElems elems)%nat in Hfuel.
    rewrite <- app_assoc in Hpending.
    destruct (Hheader (b ++ rest) r Hpending) as (et & Hread & Het).
    destruct (Hskip fuel (Z.of_nat (length elems)) 0 et ltac:(lia) ltac:(lia)
                ltac:(intros Hne; destruct elems as [| y ?]; [congruence |];
                      inversion Htypes; subst;
                      pose proof (typeOf_tag y); apply Het; lia)
                rest (consumed (b ++ rest) r) eq_refl) as [u Hu].
    exists SkNull.
    change (skip (S fuel) (typeOf (VList elemType elems)))
      with (r <- readListBegin ;;
            andThen (skipElements fuel r 0) (fun _ => readListEnd ;; ret (Some SkNull)))%js.
    eapply bind_then; [exact Hread |].
    eapply andThen_then; [exact Hu |]. reflexivity.
Qed.

(** X15. A value written on a fresh channel is skipped whole by a reader
    that is handed the bytes: [skip] on the value's tag returns, and what
    follows the value is all that is left unread.  The value may nest
    structs, maps, sets and lists at will, as long as no map holds two
    entries or more. *)
Corollary skip_after_write (v : tvalue) (sr sw sr' sw' : bool) (rest : list Z) :
  wellTyped 1 v = true ->
  outcome (writeValue v (fresh sr sw)) = Ok tt ->
  exists s,
    skip (fuelFor v) (typeOf v)
         (receiving (wire (writeValue v (fresh sr sw)) ++ rest) sr' sw')
    = (Ok (Some s), receiving rest sr' sw').
Proof.
  intros Hwt Hok.
  destruct (writeValue v (fresh sr sw)) as [[[] | e] this'] eqn:Hwrite;
    [| discriminate Hok].
  destruct (skip_consumes_written v Hwt _ _ Hwrite) as (bytes & -> & Hskip).
  unfold wire. cbn [snd append withTransport transport sent fresh TBinaryProtocol app].
  apply (Hskip (fuelFor v) (le_n _) rest (receiving (bytes ++ rest) sr' sw')).
  reflexivity.
Qed.

Example skip_after_write_nested :
  let v := VStruct
             [(1, VMap Thrift.Type_.BYTE Thrift.Type_.BYTE [(VByte 1, VByte 10)]);
              (2, VList Thrift.Type_.I64 [VI64 (-5); VI64 77]);
              (3, VString "hey");
              (-3, VSet Thrift.Type_.STRUCT [VStruct []; VStruct [(9, VBool true)]])] in
  exists s,
    skip (fuelFor v) Thrift.Type_.STRUCT
         (receiving (wire (writeValue v (fresh false true)) ++ [7]) true false)
    = (Ok (Some s), receiving [7] true false).
Proof.
  intros v.
  apply (skip_after_write v false true true false [7]); reflexivity.
Defined.

(** ** Every map of two entries makes skip throw *)

Lemma bind_throw {A B} (m : M A) (k : A -> M B) (this this1 : protocol) (e : exn) :
  m this = (Throw e, this1) -> bind m k this = (Throw e, this1).
Proof. intros Hm. unfold bind. rewrite Hm. reflexivity. Qed.

Lemma andThen_throw {A B} (m : M (option A)) (k : A -> M (option B))
    (this this1 : protocol) (e : exn) :
  m this = (Throw e, this1) -> andThen m k this = (Throw e, this1).
Proof. intros Hm. unfold andThen. apply bind_throw. exact Hm. Qed.

Lemma entries_appended (entries : list (tvalue * tvalue)) :
  Forall (fun e => skipsWritten (fst e) /\ skipsWritten (snd e)) entries ->
  writes (writeEntries entries) (fun _ => True).
Proof.
  induction entries as [| [k x] entries IH]; intros Hall this this' Hwrite.
  - injection Hwrite as <-. exists []. split; [symmetry; apply append_nil | exact I].
  - inversion Hall as [| ? ? [Hk Hx] Hrest]; subst. cbn [fst snd] in *.
    change (writeEntries ((k, x) :: entries))
      with (writeValue k ;; writeValue x ;; writeEntries entries)%js in Hwrite.
    apply bind_Ok in Hwrite. destruct Hwrite as ([] & t1 & Hkey & Hwrite).
    apply bind_Ok in Hwrite. destruct Hwrite as ([] & t2 & Hval & Hwrite).
    destruct (Hk _ _ Hkey) as (b1 & -> & _).
    destruct (Hx _ _ Hval) as (b2 & -> & _).
    destruct (IH Hrest _ _ Hwrite) as (b3 & -> & _).
    exists (b1 ++ b2 ++ b3). split; [| exact I].
    rewrite !append_append, <- ?app_assoc. reflexivity.
Qed.

(** Whatever the entries are, as long as the first key and the first
    value can be skipped: on a protocol object as the constructor builds
    it, [skip(MAP)] throws a TypeError when it enters the second turn of
    its loop. *)
Theorem skip_map_throws (k x : tvalue) (e : tvalue * tvalue)
    (entries : list (tvalue * tvalue)) :
  Forall (fun e => skipsWritten (fst e) /\ skipsWritten (snd e)) ((k, x) :: e :: entries) ->
  writes (writeValue (VMap (typeOf k) (typeOf x) ((k, x) :: e :: entries)))
         (fun bytes => forall fuel rest r,
              (fuelFor k + fuelFor x + 3 <= fuel)%nat ->
              rpos r = None ->
              pending (transport r) = bytes ++ rest ->
              outcome (skip fuel Thrift.Type_.MAP r) = Throw TypeError).
Proof.
  intros Hall this this' Hwrite.
  inversion Hall as [| ? ? [Hk Hx] Hrest]; subst. cbn [fst snd] in *.
  change (writeValue (VMap (typeOf k) (typeOf x) ((k, x) :: e :: entries)))
    with (writeMapBegin (typeOf k) (typeOf x) (Z.of_nat (length ((k, x) :: e :: entries))) ;;
          (writeValue k ;; writeValue x ;; writeEntries (e :: entries)) ;;
          writeMapEnd)%js in Hwrite.
  apply bind_Ok in Hwrite. destruct Hwrite as ([] & t1 & Hbegin & Hwrite).
  apply bind_Ok in Hwrite. destruct Hwrite as ([] & t2 & Hbody & Hend).
  injection Hend as <-.
  apply bind_Ok in Hbody. destruct Hbody as ([] & t3 & Hkey & Hbody).
  apply bind_Ok in Hbody. destruct Hbody as ([] & t4 & Hval & Hbody).
  apply map_header in Hbegin. destruct Hbegin as [-> Hheader].
  destruct (Hk _ _ Hkey) as (b1 & -> & Hskip1).
  destruct (Hx _ _ Hval) as (b2 & -> & Hskip2).
  destruct (entries_appended _ Hrest _ _ Hbody) as (b3 & -> & _).
  set (n := Z.of_nat (length ((k, x) :: e :: entries))) in *.
  exists ((([typeOf k mod 256; typeOf x mod 256] ++ p32 n) ++ b1) ++ b2 ++ b3).
  split; [rewrite !append_append, <- ?app_assoc; reflexivity |].
  intros fuel rest r Hfuel Hrpos Hpending.
  do 3 (destruct fuel as [| fuel]; [lia |]).
  rewrite <- !app_assoc in Hpending.
  destruct (Hheader (b1 ++ b2 ++ b3 ++ rest) r ltac:(rewrite <- app_assoc; exact Hpending))
    as (kt & vt & Hread & Hkt & Hvt).
  pose proof (typeOf_tag k) as Htk. pose proof (typeOf_tag x) as Htx.
  rewrite (Hkt ltac:(lia)), (Hvt ltac:(lia)) in Hread.
  destruct (Hskip1 (S fuel) ltac:(lia) (b2 ++ b3 ++ rest)
              (consumed (b1 ++ b2 ++ b3 ++ rest) r) eq_refl) as [s1 Hs1].
  destruct (Hskip2 (S fuel) ltac:(lia) (b3 ++ rest)
              (consumed (b2 ++ b3 ++ rest) r) eq_refl) as [s2 Hs2].
  assert (Hmore : (1 <? n) = true) by (apply Z.ltb_lt; subst n; cbn [length]; lia).
  assert (Hfirst : (0 <? n) = true) by (apply Z.ltb_lt; subst n; cbn [length]; lia).
  assert (Hthrow : exists st, skip (S (S (S fuel))) Thrift.Type_.MAP r = (Throw TypeError, st)).
  { eexists.
    change (skip (S (S (S fuel))) Thrift.Type_.MAP)
      with (r <- readMapBegin ;;
            andThen (skipEntries (S (S fuel)) r 0)
                    (fun _ => readMapEnd ;; ret (Some SkNull)))%js.
    eapply bind_then; [exact Hread |].
    apply andThen_throw.
    cbn [skipEntries msize ktype vtype]. rewrite Hfirst.
    eapply bind_then; [reflexivity |].
    eapply andThen_then; [exact Hs1 |].
    eapply andThen_then; [exact Hs2 |].
    change (0 + 1) with 1. rewrite Hmore.
    apply bind_throw.
    unfold rstackGuard.
    eapply bind_then; [reflexivity |].
    cbn [rpos consumed withTransport]. rewrite Hrpos. reflexivity. }
  destruct Hthrow as [st Hst]. unfold outcome. rewrite Hst. reflexivity.
Qed.

(** * Further properties of the codec *)

(** ** The wire format of the packers *)

Lemma valueBytes_pairBytes16 (ds : list Z) :
  length ds = 16%nat -> valueBytes (pairBytes ds) = valueBE 0 ds.
Proof.
  intros Hlen. list_of_length Hlen.
  unfold valueBytes, valueBE. cbn [pairBytes fold_left]. lia.
Qed.

Lemma pairBytes_octets (ds : list Z) :
  length ds = 16%nat -> Forall isHexDigit ds -> Forall isOctet (pairBytes ds).
Proof.
  intros Hlen Hds. list_of_length Hlen. split_Forall.
  unfold isHexDigit, isOctet in *. cbn [pairBytes].
  repeat (constructor; [lia |]). constructor.
Qed.

Lemma valueBytes_complement (bytes : list Z) :
  length bytes = 8%nat -> Forall isOctet bytes ->
  valueBytes (map (fun byte => byte .^ 0xff) bytes) = 2 ^ 64 - 1 - valueBytes bytes /\
  Forall isOctet (map (fun byte => byte .^ 0xff) bytes).
Proof.
  intros Hlen Hbytes. list_of_length Hlen. split_Forall.
  unfold isOctet in *. cbn [map].
  rewrite !bxor_255 by assumption.
  split.
  - unfold valueBytes. cbn [fold_left]. change (2 ^ 64) with 18446744073709551616. lia.
  - repeat (constructor; [lia |]). constructor.
Qed.

(** X1. What a packer returns is the big-endian two's-complement form of
    the number: 2, 4 or 8 octets whose value, read most significant byte
    first, is the number modulo 2^16, 2^32 or 2^64. *)
Theorem pack_wire_format (v : Z) (bytes : list Z) :
  (pack16 v = Ok bytes ->
   length bytes = 2%nat /\ Forall isOctet bytes /\ valueBytes bytes = v mod 2 ^ 16) /\
  (pack32 v = Ok bytes ->
   length bytes = 4%nat /\ Forall isOctet bytes /\ valueBytes bytes = v mod 2 ^ 32) /\
  (pack64 v = Ok bytes ->
   length bytes = 8%nat /\ Forall isOctet bytes /\ valueBytes bytes = v mod 2 ^ 64).
Proof.
  split; [| split]; intros Hpack.
  - rewrite pack16_accepts in Hpack. accepted Hpack.
    unfold int16min, int16max in *.
    rewrite p16_bytes by lia.
    split; [reflexivity |]. split.
    + repeat (constructor; [unfold isOctet; apply Z.mod_pos_bound; lia |]). constructor.
    + unfold valueBytes. cbn [fold_left]. change (2 ^ 16) with 65536.
      Z.div_mod_to_equations; lia.
  - rewrite pack32_accepts in Hpack. accepted Hpack.
    unfold int32min, int32max in *.
    rewrite p32_bytes by lia.
    split; [reflexivity |]. split.
    + repeat (constructor; [unfold isOctet; apply Z.mod_pos_bound; lia |]). constructor.
    + unfold valueBytes. cbn [fold_left]. change (2 ^ 32) with 4294967296.
      Z.div_mod_to_equations; lia.
  - rewrite pack64_accepts in Hpack. accepted Hpack.
    unfold int64min, int64max in *.
    split; [apply p64_length |].
    destruct (Z.lt_ge_cases v 0) as [Hneg | Hpos].
    + rewrite p64_neg by assumption.
      destruct (valueBytes_complement (pairBytes (digitsBE 16 (- v - 1)))) as [Hval Hoct].
      { pose proof (p64_length v) as Hlen. rewrite p64_neg in Hlen by assumption.
        rewrite length_map in Hlen. exact Hlen. }
      { apply pairBytes_octets; [apply digitsBE_length | apply digitsBE_hex]. }
      split; [exact Hoct |].
      rewrite Hval, valueBytes_pairBytes16 by apply digitsBE_length.
      rewrite valueBE_digitsBE.
      change (16 ^ Z.of_nat 16) with 18446744073709551616.
      change (2 ^ 64) with 18446744073709551616.
      rewrite (Z.mod_small (- v - 1)) by lia.
      apply Z.mod_unique with (q := -1); lia.
    + rewrite p64_nonneg by assumption.
      split; [apply pairBytes_octets; [apply digitsBE_length | apply digitsBE_hex] |].
      rewrite valueBytes_pairBytes16 by apply digitsBE_length.
      rewrite valueBE_digitsBE.
      change (16 ^ Z.of_nat 16) with (2 ^ 64). lia.
Qed.

Lemma pack_wire_format_witness :
  (length [255; 254] = 2%nat /\ Forall isOctet [255; 254] /\
   valueBytes [255; 254] = (-2) mod 2 ^ 16) /\
  (length [255; 255; 255; 254] = 4%nat /\ Forall isOctet [255; 255; 255; 254] /\
   valueBytes [255; 255; 255; 254] = (-2) mod 2 ^ 32) /\
  (length [255; 255; 255; 255; 255; 255; 255; 254] = 8%nat /\
   Forall isOctet [255; 255; 255; 255; 255; 255; 255; 254] /\
   valueBytes [255; 255; 255; 255; 255; 255; 255; 254] = (-2) mod 2 ^ 64).
Proof.
  split; [| split].
  - apply (pack_wire_format (-2) [255; 254]). reflexivity.
  - apply (pack_wire_format (-2) [255; 255; 255; 254]). reflexivity.
  - apply (pack_wire_format (-2) [255; 255; 255; 255; 255; 255; 255; 254]). reflexivity.
Defined.

(** X2. [unpack16] and [unpack32] read any two or four octets as a
    big-endian two's-complement number. *)
Theorem unpack_twos_complement (a b c d : Z) :
  isOctet a -> isOctet b -> isOctet c -> isOctet d ->
  unpack16 [a; b] = Ok (wrapSigned 16 (valueBytes [a; b])) /\
  unpack32 [a; b; c; d] = Ok (wrapSigned 32 (valueBytes [a; b; c; d])).
Proof.
  unfold isOctet. intros Ha Hb Hc Hd.
  unfold unpack16, unpack32. cbn [length Z.of_nat Z.eqb Pos.eqb negb Pos.of_succ_nat Pos.succ].
  rewrite u16_bytes, u32_bytes by assumption.
  unfold wrapSigned, valueBytes. cbn [fold_left].
  change (2 ^ (16 - 1)) with 32768. change (2 ^ 16) with 65536.
  change (2 ^ (32 - 1)) with 2147483648. change (2 ^ 32) with 4294967296.
  split; f_equal.
  - destruct (128 <=? a) eqn:Hsign;
      [apply Z.leb_le in Hsign | apply Z.leb_gt in Hsign];
      Z.div_mod_to_equations; lia.
  - destruct (128 <=? a) eqn:Hsign;
      [apply Z.leb_le in Hsign | apply Z.leb_gt in Hsign];
      Z.div_mod_to_equations; lia.
Qed.

Lemma unpack_twos_complement_witness :
  unpack16 [255; 254] = Ok (wrapSigned 16 (valueBytes [255; 254])) /\
  unpack32 [255; 254; 128; 0] = Ok (wrapSigned 32 (valueBytes [255; 254; 128; 0])).
Proof.
  apply (unpack_twos_complement 255 254 128 0); unfold isOctet; lia.
Defined.

(** ** Integers on the channel *)


Lemma octets_id (bytes : list Z) : Forall isOctet bytes -> octets bytes = bytes.
Proof.
  induction bytes as [| b bytes IH]; intros Hall; [reflexivity |].
  inversion Hall as [| ? ? Hb Hrest]; subst.
  unfold octets in *. cbn [map]. rewrite IH by assumption.
  unfold isOctet in Hb. rewrite Z.mod_small by lia. reflexivity.
Qed.

Lemma p64_octets (v : Z) : Forall isOctet (p64 v).
Proof.
  destruct (Z.lt_ge_cases v 0) as [Hneg | Hpos].
  - rewrite p64_neg by assumption.
    apply valueBytes_complement.
    + pose proof (p64_length v) as Hlen. rewrite p64_neg in Hlen by assumption.
      rewrite length_map in Hlen. exact Hlen.
    + apply pairBytes_octets; [apply digitsBE_length | apply digitsBE_hex].
  - rewrite p64_nonneg by assumption.
    apply pairBytes_octets; [apply digitsBE_length | apply digitsBE_hex].
Qed.


Lemma receiving_consumed (bytes rest : list Z) (sr sw : bool) :
  consumed rest (receiving bytes sr sw) = receiving rest sr sw.
Proof. reflexivity. Qed.

(** X4. What [writeI16], [writeI32] or [writeI64] sent, [readI16],
    [readI32] or [readI64] reads back as the number written, and leaves
    the bytes after it unread. *)
Theorem int_write_read (v : Z) (sr sw sr' sw' : bool) (this' : protocol) (rest : list Z) :
  (writeI16 v (fresh sr sw) = (Ok tt, this') ->
   readI16 (receiving (sent (transport this') ++ rest) sr' sw')
   = (Ok v, receiving rest sr' sw')) /\
  (writeI32 v (fresh sr sw) = (Ok tt, this') ->
   readI32 (receiving (sent (transport this') ++ rest) sr' sw')
   = (Ok v, receiving rest sr' sw')) /\
  (writeI64 v (fresh sr sw) = (Ok tt, this') ->
   readI64 (receiving (sent (transport this') ++ rest) sr' sw')
   = (Ok v, receiving rest sr' sw')).
Proof.
  split; [| split]; intros Hwrite.
  - apply writeI16_Ok in Hwrite. destruct Hwrite as [-> Hv].
    apply readI16_p16; [assumption | reflexivity].
  - apply writeI32_Ok in Hwrite. destruct Hwrite as [-> Hv].
    apply readI32_p32; [assumption | reflexivity].
  - rewrite writeI64_run in Hwrite.
    destruct ((int64min <=? v) && (v <=? int64max)) eqn:Hrange; [| discriminate Hwrite].
    apply andb_prop in Hrange. destruct Hrange as [Hlo Hhi].
    apply Z.leb_le in Hlo. apply Z.leb_le in Hhi.
    injection Hwrite as <-.
    rewrite (readI64_run (p64 v) rest);
      [| apply p64_length
       | cbn [append withTransport transport sent pending fresh receiving TBinaryProtocol app];
         rewrite octets_id by apply p64_octets; reflexivity].
    rewrite u64_p64 by lia. reflexivity.
Qed.

Lemma int_write_read_witness :
  readI16 (receiving ([255; 251] ++ [9]) true false) = (Ok (-5), receiving [9] true false) /\
  readI32 (receiving ([255; 255; 255; 251] ++ [9]) true false)
  = (Ok (-5), receiving [9] true false) /\
  readI64 (receiving ([255; 255; 255; 255; 255; 255; 255; 251] ++ [9]) true false)
  = (Ok (-5), receiving [9] true false).
Proof.
  split; [| split].
  - apply (int_write_read (-5) false true true false
             (snd (writeI16 (-5) (fresh false true))) [9]). reflexivity.
  - apply (int_write_read (-5) false true true false
             (snd (writeI32 (-5) (fresh false true))) [9]). reflexivity.
  - apply (int_write_read (-5) false true true false
             (snd (writeI64 (-5) (fresh false true))) [9]). reflexivity.
Defined.




(** ** Bytes, booleans, strings *)

Lemma signed_octet (v : Z) :
  (if 128 <=? v mod 256 then v mod 256 - 256 else v mod 256) = wrapSigned 8 v.
Proof.
  unfold wrapSigned. change (2 ^ (8 - 1)) with 128. change (2 ^ 8) with 256.
  destruct (128 <=? v mod 256) eqn:Hsign;
    [apply Z.leb_le in Hsign | apply Z.leb_gt in Hsign];
    Z.div_mod_to_equations; lia.
Qed.

Lemma wrapSigned_8_id (v : Z) : wrapSigned 8 v = v <-> -128 <= v <= 127.
Proof.
  unfold wrapSigned. change (2 ^ (8 - 1)) with 128. change (2 ^ 8) with 256.
  split; intros H; Z.div_mod_to_equations; lia.
Qed.

Lemma readByte_written (v : Z) (rest : list Z) (sr sw : bool) :
  readByte (receiving (v mod 256 :: rest) sr sw)
  = (Ok (wrapSigned 8 v), receiving rest sr sw).
Proof.
  rewrite (readByte_run (v mod 256) rest);
    [| unfold isOctet; apply Z.mod_pos_bound; lia | reflexivity].
  rewrite signed_octet. reflexivity.
Qed.



(** X7. [readBool] answers false on the byte 0 and true on every other
    byte, and reads back what [writeBool] wrote. *)
Theorem bool_write_read (sr sw sr' sw' : bool) (rest : list Z) :
  (forall x, isOctet x ->
     readBool (receiving (x :: rest) sr' sw') = (Ok (negb (x =? 0)), receiving rest sr' sw')) /\
  (forall b,
     outcome (writeBool b (fresh sr sw)) = Ok tt /\
     readBool (receiving (wire (writeBool b (fresh sr sw)) ++ rest) sr' sw')
     = (Ok b, receiving rest sr' sw')).
Proof.
  split.
  - intros x Hx. unfold readBool.
    eapply bind_then; [apply (readByte_run x rest); [exact Hx | reflexivity] |].
    unfold isOctet in Hx. unfold ret. f_equal. f_equal.
    destruct (128 <=? x) eqn:Hsign;
      [apply Z.leb_le in Hsign | apply Z.leb_gt in Hsign].
    + assert (Hnz : (x =? 0) = false) by (apply Z.eqb_neq; lia).
      assert (Hnz' : (x - 256 =? 0) = false) by (apply Z.eqb_neq; lia).
      rewrite Hnz, Hnz'. reflexivity.
    + reflexivity.
  - intros b. destruct b; split; reflexivity.
Qed.

Lemma bool_write_read_witness :
  readBool (receiving (255 :: [9]) true false) = (Ok (negb (255 =? 0)), receiving [9] true false).
Proof.
  apply (bool_write_read false true true false [9]). unfold isOctet. lia.
Defined.




Lemma encode_octets (s : string) : Forall isOctet (utf8.encode s).
Proof.
  unfold utf8.encode. apply Forall_forall. intros b Hin.
  apply in_map_iff in Hin. destruct Hin as (c & <- & _).
  unfold isOctet. pose proof (N_ascii_bounded c). lia.
Qed.

Lemma decode_encode (s : string) : utf8.decode (utf8.encode s) = s.
Proof.
  unfold utf8.decode, utf8.encode. rewrite map_map.
  rewrite (map_ext _ (fun c => c)), map_id.
  - apply string_of_list_ascii_of_string.
  - intros c. rewrite N2Z.id. apply ascii_N_embedding.
Qed.

(** X9. [readString] returns the string [writeString] wrote: the length
    prefix counts the encoded bytes and exactly those are decoded. *)
Theorem string_write_read (s : string) (sr sw sr' sw' : bool) (this' : protocol)
    (rest : list Z) :
  writeString s (fresh sr sw) = (Ok tt, this') ->
  readString (receiving (sent (transport this') ++ rest) sr' sw')
  = (Ok s, receiving rest sr' sw').
Proof.
  intros Hwrite. apply writeString_Ok in Hwrite. destruct Hwrite as [-> Hlen].
  rewrite (octets_id (utf8.encode s)) by apply encode_octets.
  unfold readString.
  eapply bind_then.
  { apply (readI32_p32 (Z.of_nat (length (utf8.encode s))) (utf8.encode s ++ rest)); [lia |].
    cbn [append withTransport transport sent pending fresh receiving TBinaryProtocol app].
    rewrite <- app_assoc. reflexivity. }
  eapply bind_then; [apply (readMultiple_run (utf8.encode s) rest); reflexivity |].
  fold (octets (utf8.encode s)).
  rewrite (octets_id (utf8.encode s)) by apply encode_octets.
  rewrite decode_encode. reflexivity.
Qed.

Lemma string_write_read_witness :
  readString (receiving ([0; 0; 0; 3; 104; 101; 121] ++ [9]) true false)
  = (Ok "hey"%string, receiving [9] true false).
Proof.
  apply (string_write_read "hey" false true true false
           (snd (writeString "hey" (fresh false true))) [9]).
  reflexivity.
Defined.

(** ** Field and collection headers *)

Lemma wrapSigned_8_small (v : Z) : -128 <= v <= 127 -> wrapSigned 8 v = v.
Proof. apply wrapSigned_8_id. Qed.

(** X10. A field header written by [writeFieldBegin] is read back by
    [readFieldBegin] with its tag and id; the stop byte is read as the
    stop tag with id 0 and nothing after it is touched; and a header
    written with tag 0 is read as the stop mark, its id left unread. *)
Theorem field_header_write_read (name : string) (type id : Z) (sr sw sr' sw' : bool)
    (this' : protocol) (rest : list Z) :
  (writeFieldBegin name type id (fresh sr sw) = (Ok tt, this') ->
   -128 <= type <= 127 ->
   readFieldBegin (receiving (sent (transport this') ++ rest) sr' sw')
   = if type =? Thrift.Type_.STOP
     then (Ok {| ftype := Thrift.Type_.STOP; fid := 0 |}, receiving (p16 id ++ rest) sr' sw')
     else (Ok {| ftype := type; fid := id |}, receiving rest sr' sw')) /\
  readFieldBegin (receiving (wire (writeFieldStop (fresh sr sw)) ++ rest) sr' sw')
  = (Ok {| ftype := Thrift.Type_.STOP; fid := 0 |}, receiving rest sr' sw').
Proof.
  split; [| reflexivity].
  intros Hwrite Htype. unfold writeFieldBegin in Hwrite.
  apply bind_Ok in Hwrite. destruct Hwrite as ([] & t1 & Htag & Hid).
  apply writeByte_Ok in Htag. subst t1.
  apply writeI16_Ok in Hid. destruct Hid as [-> Hrange].
  unfold readFieldBegin.
  eapply bind_then; [apply (readByte_written type (p16 id ++ rest)) |].
  rewrite wrapSigned_8_small by assumption.
  destruct (type =? Thrift.Type_.STOP) eqn:Hstop.
  - apply Z.eqb_eq in Hstop. subst type. reflexivity.
  - eapply bind_then; [apply (readI16_p16 id rest); [assumption | reflexivity] |].
    reflexivity.
Qed.

Lemma field_header_write_read_witness :
  readFieldBegin (receiving ([11; 255; 253] ++ [9]) true false)
  = if 11 =? Thrift.Type_.STOP
    then (Ok {| ftype := Thrift.Type_.STOP; fid := 0 |}, receiving (p16 (-3) ++ [9]) true false)
    else (Ok {| ftype := 11; fid := -3 |}, receiving [9] true false).
Proof.
  apply (field_header_write_read "f" 11 (-3) false true true false
           (snd (writeFieldBegin "f" 11 (-3) (fresh false true))) [9]).
  - reflexivity.
  - lia.
Defined.

(** X11. The header of a map, a list or a set is read back as written:
    the type tags as signed bytes, the count as the i32 it was. *)
Theorem collection_header_write_read (keyType valType elemType n : Z)
    (sr sw sr' sw' : bool) (this' : protocol) (rest : list Z) :
  (writeMapBegin keyType valType n (fresh sr sw) = (Ok tt, this') ->
   -128 <= keyType <= 127 -> -128 <= valType <= 127 ->
   readMapBegin (receiving (sent (transport this') ++ rest) sr' sw')
   = (Ok {| ktype := keyType; vtype := valType; msize := n |}, receiving rest sr' sw')) /\
  (writeListBegin elemType n (fresh sr sw) = (Ok tt, this') ->
   -128 <= elemType <= 127 ->
   readListBegin (receiving (sent (transport this') ++ rest) sr' sw')
   = (Ok {| etype := elemType; size := n |}, receiving rest sr' sw')) /\
  (writeSetBegin elemType n (fresh sr sw) = (Ok tt, this') ->
   -128 <= elemType <= 127 ->
   readSetBegin (receiving (sent (transport this') ++ rest) sr' sw')
   = (Ok {| etype := elemType; size := n |}, receiving rest sr' sw')).
Proof.
  assert (Hcol : writeListBegin elemType n (fresh sr sw) = (Ok tt, this') ->
                 -128 <= elemType <= 127 ->
                 readListBegin (receiving (sent (transport this') ++ rest) sr' sw')
                 = (Ok {| etype := elemType; size := n |}, receiving rest sr' sw')).
  { intros Hwrite He. unfold writeListBegin in Hwrite.
    apply bind_Ok in Hwrite. destruct Hwrite as ([] & t1 & Htag & Hsize).
    apply writeByte_Ok in Htag. subst t1.
    apply writeI32_Ok in Hsize. destruct Hsize as [-> Hn].
    unfold readListBegin.
    eapply bind_then; [apply (readByte_written elemType (p32 n ++ rest)) |].
    rewrite wrapSigned_8_small by assumption.
    eapply bind_then; [apply (readI32_p32 n rest); [assumption | reflexivity] |].
    reflexivity. }
  split; [| split; exact Hcol].
  intros Hwrite Hk Hv. unfold writeMapBegin in Hwrite.
  apply bind_Ok in Hwrite. destruct Hwrite as ([] & t1 & Hkey & Hwrite).
  apply bind_Ok in Hwrite. destruct Hwrite as ([] & t2 & Hval & Hsize).
  apply writeByte_Ok in Hkey. apply writeByte_Ok in Hval. subst t1 t2.
  apply writeI32_Ok in Hsize. destruct Hsize as [-> Hn].
  unfold readMapBegin.
  eapply bind_then;
    [apply (readByte_written keyType (valType mod 256 :: p32 n ++ rest)) |].
  eapply bind_then; [apply (readByte_written valType (p32 n ++ rest)) |].
  rewrite !wrapSigned_8_small by assumption.
  eapply bind_then; [apply (readI32_p32 n rest); [assumption | reflexivity] |].
  reflexivity.
Qed.

Lemma collection_header_write_read_witness :
  readMapBegin (receiving ([11; 12; 0; 0; 0; 2] ++ [9]) true false)
  = (Ok {| ktype := 11; vtype := 12; msize := 2 |}, receiving [9] true false) /\
  readListBegin (receiving ([8; 0; 0; 0; 2] ++ [9]) true false)
  = (Ok {| etype := 8; size := 2 |}, receiving [9] true false) /\
  readSetBegin (receiving ([8; 0; 0; 0; 2] ++ [9]) true false)
  = (Ok {| etype := 8; size := 2 |}, receiving [9] true false).
Proof.
  split; [| split].
  - apply (collection_header_write_read 11 12 8 2 false true true false
             (snd (writeMapBegin 11 12 2 (fresh false true))) [9]);
      [reflexivity | lia | lia].
  - apply (collection_header_write_read 11 12 8 2 false true true false
             (snd (writeListBegin 8 2 (fresh false true))) [9]);
      [reflexivity | lia].
  - apply (collection_header_write_read 11 12 8 2 false true true false
             (snd (writeSetBegin 8 2 (fresh false true))) [9]);
      [reflexivity | lia].
Defined.

(** ** Message envelopes *)

Lemma writeMessageBegin_nonstrict (name : string) (type seqid : Z) (sr : bool)
    (this' : protocol) :
  writeMessageBegin name type seqid (fresh sr false) = (Ok tt, this') ->
  this' = append (p32 (Z.of_nat (length (utf8.encode name))) ++ utf8.encode name ++
                  [type mod 256] ++ p32 seqid) (fresh sr false) /\
  Z.of_nat (length (utf8.encode name)) < 2147483648 /\
  -2147483648 <= seqid < 2147483648.
Proof.
  intros Hwrite.
  change (writeMessageBegin name type seqid (fresh sr false))
    with ((writeString name ;; writeByte type ;; writeI32 seqid)%js (fresh sr false))
    in Hwrite.
  apply bind_Ok in Hwrite. destruct Hwrite as ([] & t1 & Hname & Hwrite).
  apply bind_Ok in Hwrite. destruct Hwrite as ([] & t2 & Htype & Hseq).
  apply writeString_Ok in Hname. destruct Hname as [-> Hlen].
  apply writeByte_Ok in Htype. subst t2.
  apply writeI32_Ok in Hseq. destruct Hseq as [-> Hrange].
  rewrite (octets_id (utf8.encode name)) by apply encode_octets.
  rewrite !append_append, <- ?app_assoc. auto.
Qed.

(** X12. A message written without the version header is read back by a
    reader that is not strict: name, kind and sequence id come back as
    written, provided the kind fits a signed byte. *)
Theorem nonstrict_message_roundtrip (name : string) (type seqid : Z) (sr sw : bool)
    (this' : protocol) (rest : list Z) :
  writeMessageBegin name type seqid (fresh sr false) = (Ok tt, this') ->
  -128 <= type <= 127 ->
  readMessageBegin (receiving (sent (transport this') ++ rest) false sw)
  = (Ok {| fname := name; mtype := type; rseqid := seqid |}, receiving rest false sw).
Proof.
  intros Hwrite Htype.
  apply writeMessageBegin_nonstrict in Hwrite. destruct Hwrite as (-> & Hlen & Hseq).
  set (len := Z.of_nat (length (utf8.encode name))) in *.
  assert (Hnn : (len <? 0) = false) by (apply Z.ltb_ge; subst len; lia).
  unfold readMessageBegin.
  eapply bind_then.
  { apply (readI32_p32 len (utf8.encode name ++ [type mod 256] ++ p32 seqid ++ rest));
      [subst len; lia |].
    cbn [append withTransport transport sent pending fresh receiving TBinaryProtocol app].
    rewrite <- !app_assoc. reflexivity. }
  rewrite Hnn.
  eapply bind_then; [reflexivity |].
  cbn [strictRead consumed withTransport receiving TBinaryProtocol].
  unfold readMultipleAsString.
  eapply bind_then.
  { eapply bind_then;
      [apply (readMultiple_run (utf8.encode name) ([type mod 256] ++ p32 seqid ++ rest));
       reflexivity |].
    reflexivity. }
  eapply bind_then; [apply (readByte_written type (p32 seqid ++ rest)) |].
  eapply bind_then; [apply (readI32_p32 seqid rest); [assumption | reflexivity] |].
  rewrite decode_encode, wrapSigned_8_small by assumption. reflexivity.
Qed.

Lemma nonstrict_message_roundtrip_witness :
  readMessageBegin
    (receiving ([0; 0; 0; 4; 112; 105; 110; 103; 1; 0; 0; 0; 42] ++ [9]) false true)
  = (Ok {| fname := "ping"; mtype := 1; rseqid := 42 |}, receiving [9] false true).
Proof.
  apply (nonstrict_message_roundtrip "ping" 1 42 true true
           (snd (writeMessageBegin "ping" 1 42 (fresh true false))) [9]).
  - reflexivity.
  - lia.
Defined.

Lemma strict_header (type : Z) :
  -32768 <= type < 32768 ->
  [128; 1] ++ p16 type = p32 (-2147418112 + type mod 65536).
Proof.
  intros Htype.
  rewrite p16_bytes by assumption.
  rewrite p32_bytes by (Z.div_mod_to_equations; lia).
  cbn [app].
  f_equal; [| f_equal; [| f_equal; [| f_equal]]];
    Z.div_mod_to_equations; lia.
Qed.

Lemma writeMessageBegin_strict (name : string) (type seqid : Z) (sr : bool)
    (this' : protocol) :
  writeMessageBegin name type seqid (fresh sr true) = (Ok tt, this') ->
  this' = append (p32 (-2147418112 + type mod 65536) ++
                  p32 (Z.of_nat (length (utf8.encode name))) ++ utf8.encode name ++
                  p32 seqid) (fresh sr true) /\
  -32768 <= type < 32768 /\
  Z.of_nat (length (utf8.encode name)) < 2147483648 /\
  -2147483648 <= seqid < 2147483648.
Proof.
  intros Hwrite.
  change (writeMessageBegin name type seqid (fresh sr true))
    with ((writeI16 (-32767) ;; writeI16 type ;; writeString name ;; writeI32 seqid)%js
            (fresh sr true)) in Hwrite.
  apply bind_Ok in Hwrite. destruct Hwrite as ([] & t1 & Hversion & Hwrite).
  apply bind_Ok in Hwrite. destruct Hwrite as ([] & t2 & Htype & Hwrite).
  apply bind_Ok in Hwrite. destruct Hwrite as ([] & t3 & Hname & Hseq).
  apply writeI16_Ok in Hversion. destruct Hversion as [-> _].
  apply writeI16_Ok in Htype. destruct Htype as [-> Htype].
  apply writeString_Ok in Hname. destruct Hname as [-> Hlen].
  apply writeI32_Ok in Hseq. destruct Hseq as [-> Hrange].
  rewrite (octets_id (utf8.encode name)) by apply encode_octets.
  rewrite !append_append, <- ?app_assoc.
  change (p16 (-32767)) with [128; 1].
  rewrite (app_assoc [128; 1] (p16 type)), strict_header by assumption.
  auto.
Qed.

(** X13. A message written with the version header comes back from
    [readMessageBegin] when its kind is even, with the kind reduced
    modulo 256; when the kind is odd the reader throws
    [MissingVersionIdentifier], whatever its strictness. *)
Theorem strict_message_roundtrip (name : string) (type seqid : Z) (sr sr' sw' : bool)
    (this' : protocol) (rest : list Z) :
  writeMessageBegin name type seqid (fresh sr true) = (Ok tt, this') ->
  (Z.odd type = true ->
   outcome (readMessageBegin (receiving (sent (transport this') ++ rest) sr' sw'))
   = Throw MissingVersionIdentifier) /\
  (Z.odd type = false ->
   readMessageBegin (receiving (sent (transport this') ++ rest) sr' sw')
   = (Ok {| fname := name; mtype := type mod 256; rseqid := seqid |},
      receiving rest sr' sw')).
Proof.
  intros Hwrite.
  apply writeMessageBegin_strict in Hwrite.
  destruct Hwrite as (-> & Htype & Hlen & Hseq).
  set (version := -2147418112 + type mod 65536).
  set (len := Z.of_nat (length (utf8.encode name))) in *.
  assert (Hversion : -2147483648 <= version < 0)
    by (subst version; Z.div_mod_to_equations; lia).
  assert (Hparity : Z.odd version = Z.odd type).
  { replace version with (type + 2 * (- (32768 * (type / 65536)) - 1073709056))
      by (subst version; Z.div_mod_to_equations; lia).
    apply Z.odd_add_mul_2. }
  assert (Hsent :
            sent (transport (append (p32 version ++ p32 len ++ utf8.encode name ++ p32 seqid)
                                    (fresh sr true))) ++ rest
            = p32 version ++ (p32 len ++ utf8.encode name ++ p32 seqid ++ rest)).
  { cbn [append withTransport transport sent fresh TBinaryProtocol app].
    rewrite <- !app_assoc. reflexivity. }
  rewrite Hsent, readMessageBegin_versioned, Hparity by assumption.
  split; intros Hodd; rewrite Hodd; [reflexivity |].
  eapply bind_then.
  { unfold readString.
    eapply bind_then;
      [apply (readI32_p32 len (utf8.encode name ++ p32 seqid ++ rest));
       [subst len; lia | reflexivity] |].
    eapply bind_then;
      [apply (readMultiple_run (utf8.encode name) (p32 seqid ++ rest)); reflexivity |].
    reflexivity. }
  eapply bind_then; [apply (readI32_p32 seqid rest); [assumption | reflexivity] |].
  fold (octets (utf8.encode name)).
  rewrite (octets_id (utf8.encode name)) by apply encode_octets.
  rewrite decode_encode.
  change TYPE_MASK with 255. rewrite band_255 by lia.
  replace (version mod 256) with (type mod 256)
    by (subst version; Z.div_mod_to_equations; lia).
  reflexivity.
Qed.

Lemma strict_message_roundtrip_witness :
  (Z.odd 2 = true ->
   outcome (readMessageBegin
              (receiving ([128; 1; 0; 2; 0; 0; 0; 4; 112; 105; 110; 103; 0; 0; 0; 42] ++ [9])
                         true false))
   = Throw MissingVersionIdentifier) /\
  (Z.odd 2 = false ->
   readMessageBegin
     (receiving ([128; 1; 0; 2; 0; 0; 0; 4; 112; 105; 110; 103; 0; 0; 0; 42] ++ [9])
                true false)
   = (Ok {| fname := "ping"; mtype := 2 mod 256; rseqid := 42 |}, receiving [9] true false)).
Proof.
  apply (strict_message_roundtrip "ping" 2 42 false true false
           (snd (writeMessageBegin "ping" 2 42 (fresh false true))) [9]).
  reflexivity.
Defined.

(** X14. Nothing is rolled back: when the sequence id is out of range,
    [writeMessageBegin] throws only after the name and the kind are on
    the channel, and they stay there. *)
Theorem message_write_not_rolled_back (name : string) (type seqid : Z) (sr : bool) :
  Z.of_nat (length (utf8.encode name)) <= 2147483647 ->
  -2147483648 < type < 2147483648 ->
  seqid < -2147483647 \/ 2147483647 < seqid ->
  writeMessageBegin name type seqid (fresh sr false)
  = (Throw (OutOfRange 4 seqid),
     append (p32 (Z.of_nat (length (utf8.encode name))) ++ utf8.encode name ++ [type mod 256])
            (fresh sr false)).
Proof.
  intros Hlen Htype Hseq.
  change (writeMessageBegin name type seqid (fresh sr false))
    with ((writeString name ;; writeByte type ;; writeI32 seqid)%js (fresh sr false)).
  pose proof (writeString_run name (fresh sr false)) as Hname. cbv zeta in Hname.
  assert (Hin : (int32min <=? Z.of_nat (length (utf8.encode name))) &&
                (Z.of_nat (length (utf8.encode name)) <=? int32max) = true).
  { apply andb_true_intro. unfold int32min, int32max. split; apply Z.leb_le; lia. }
  rewrite Hin in Hname.
  eapply bind_then; [exact Hname |].
  assert (Hbyte : (type <=? -2147483648) || (type >=? 2147483648) = false).
  { apply orb_false_intro; [apply Z.leb_gt | rewrite Z.geb_leb; apply Z.leb_gt]; lia. }
  eapply bind_then; [rewrite writeByte_run, Hbyte; reflexivity |].
  rewrite writeI32_run.
  assert (Hout : (int32min <=? seqid) && (seqid <=? int32max) = false).
  { unfold int32min, int32max. apply andb_false_iff.
    destruct Hseq; [left; apply Z.leb_gt | right; apply Z.leb_gt]; lia. }
  rewrite Hout, !append_append.
  rewrite octets_p32 by lia.
  rewrite (octets_id (utf8.encode name)) by apply encode_octets.
  rewrite <- !app_assoc. reflexivity.
Qed.

Lemma message_write_not_rolled_back_witness :
  writeMessageBegin "ping" 1 (2 ^ 31) (fresh true false)
  = (Throw (OutOfRange 4 (2 ^ 31)),
     append (p32 (Z.of_nat (length (utf8.encode "ping"))) ++ utf8.encode "ping" ++ [1 mod 256])
            (fresh true false)).
Proof.
  apply (message_write_not_rolled_back "ping" 1 (2 ^ 31) true); cbn; lia.
Defined.

(** ** More on skip *)

Lemma wellTyped_entries (entries : list (tvalue * tvalue)) :
  forallb (fun e => wellTyped 1 (fst e) && wellTyped 1 (snd e)) entries = true ->
  Forall (fun e => skipsWritten (fst e) /\ skipsWritten (snd e)) entries.
Proof.
  intros Hall. apply Forall_forall. intros e Hin.
  rewrite forallb_forall in Hall. specialize (Hall e Hin).
  apply andb_prop in Hall. destruct Hall as [Hk Hx].
  split; apply skip_consumes_written; assumption.
Qed.

(** X16. A map of two entries or more, written on a fresh channel, makes
    [skip(MAP)] throw a TypeError in the reader that is handed the bytes,
    whatever follows them and however much fuel there is from the first
    entry's need on. *)
Theorem skip_written_map_throws (k x : tvalue) (e : tvalue * tvalue)
    (entries : list (tvalue * tvalue)) (sr sw sr' sw' : bool) (rest : list Z) (n : nat) :
  let map := VMap (typeOf k) (typeOf x) ((k, x) :: e :: entries) in
  forallb (fun e => wellTyped 1 (fst e) && wellTyped 1 (snd e)) ((k, x) :: e :: entries) = true ->
  outcome (writeValue map (fresh sr sw)) = Ok tt ->
  outcome (skip (fuelFor k + fuelFor x + 3 + n) Thrift.Type_.MAP
                (receiving (wire (writeValue map (fresh sr sw)) ++ rest) sr' sw'))
  = Throw TypeError.
Proof.
  intros map Hwt Hok.
  destruct (writeValue map (fresh sr sw)) as [[[] | err] this'] eqn:Hwrite;
    [| discriminate Hok].
  destruct (skip_map_throws k x e entries (wellTyped_entries _ Hwt) _ _ Hwrite)
    as (bytes & -> & Hthrow).
  apply (Hthrow _ rest); [lia | reflexivity | reflexivity].
Qed.

Lemma skip_written_map_throws_witness :
  outcome (skip (fuelFor (VByte 1) + fuelFor (VByte 10) + 3 + 0) Thrift.Type_.MAP
                (receiving ([3; 3; 0; 0; 0; 2; 1; 10; 2; 20] ++ [9]) true false))
  = Throw TypeError.
Proof.
  apply (skip_written_map_throws (VByte 1) (VByte 10) (VByte 2, VByte 20) []
           false true true false [9] 0); reflexivity.
Defined.

(** X17. [skip] reads nothing for the stop tag, and nothing for a tag
    that is none of the twelve it knows: it returns at once, and the value
    that carries the unknown tag stays on the channel. *)
Theorem skip_unknown_tag (fuel : nat) (type : Z) (this : protocol) :
  skip (S fuel) Thrift.Type_.STOP this = (Ok (Some SkNull), this) /\
  (~ In type [0; 2; 3; 4; 6; 8; 10; 11; 12; 13; 14; 15] ->
   skip (S fuel) type this = (Ok (Some SkUndefined), this)).
Proof.
  split; [reflexivity |].
  intros Hnot. cbn [In] in Hnot.
  cbn [skip].
  unfold Thrift.Type_.STOP, Thrift.Type_.BOOL, Thrift.Type_.BYTE, Thrift.Type_.I16,
    Thrift.Type_.I32, Thrift.Type_.I64, Thrift.Type_.DOUBLE, Thrift.Type_.STRING,
    Thrift.Type_.STRUCT, Thrift.Type_.MAP, Thrift.Type_.SET, Thrift.Type_.LIST.
  repeat match goal with
         | |- context [type =? ?c] =>
             let H := fresh in
             assert (H : (type =? c) = false) by (apply Z.eqb_neq; intros ->; tauto);
             rewrite H; clear H
         end.
  reflexivity.
Qed.

Lemma skip_unknown_tag_witness :
  skip 1 16 (receiving [1; 2; 3] true false)
  = (Ok (Some SkUndefined), receiving [1; 2; 3] true false).
Proof.
  apply (skip_unknown_tag 0 16 (receiving [1; 2; 3] true false)).
  cbn [In]. intros H. repeat (destruct H as [H | H]; [discriminate H |]). exact H.
Defined.

(** ** What reading and writing leave alone *)

Lemma forward_ret {A} (a : A) : forward (ret a).
Proof.
  intros this r this' H. injection H as _ <-.
  repeat split. exists []. reflexivity.
Qed.

Lemma forward_throw {A} (e : exn) : forward (@throw A e).
Proof.
  intros this r this' H. injection H as _ <-.
  repeat split. exists []. reflexivity.
Qed.

Lemma forward_lift {A} (x : result A) : forward (lift x).
Proof.
  intros this r this' H. injection H as _ <-.
  repeat split. exists []. reflexivity.
Qed.

Lemma forward_this : forward this_.
Proof.
  intros this r this' H. injection H as _ <-.
  repeat split. exists []. reflexivity.
Qed.

Lemma forward_bind {A B} (m : M A) (k : A -> M B) :
  forward m -> (forall a, forward (k a)) -> forward (bind m k).
Proof.
  intros Hm Hk this r this' H. unfold bind in H.
  destruct (m this) as [[a | e] t1] eqn:Hrun.
  - destruct (Hm _ _ _ Hrun) as (Hs1 & Hr1 & Hw1 & Hp1 & p1 & Hpre1).
    destruct (Hk a _ _ _ H) as (Hs2 & Hr2 & Hw2 & Hp2 & p2 & Hpre2).
    repeat split; try congruence.
    exists (p1 ++ p2). rewrite Hpre1, Hpre2, app_assoc. reflexivity.
  - injection H as <- <-. exact (Hm _ _ _ Hrun).
Qed.

Lemma forward_andThen {A B} (m : M (option A)) (k : A -> M (option B)) :
  forward m -> (forall a, forward (k a)) -> forward (andThen m k).
Proof.
  intros Hm Hk. unfold andThen. apply forward_bind; [exact Hm |].
  intros [a |]; [apply Hk | apply forward_ret].
Qed.

Lemma forward_Transport_readByte : forward Transport.readByte.
Proof.
  intros this r this' H. unfold Transport.readByte in H.
  destruct (pending (transport this)) as [| b rest] eqn:Hpending.
  - injection H as _ <-. repeat split. exists []. rewrite Hpending. reflexivity.
  - injection H as _ <-. repeat split. exists [b]. reflexivity.
Qed.

Lemma forward_Transport_read (len : Z) : forward (Transport.read len).
Proof.
  intros this r this' H. unfold Transport.read in H.
  destruct ((len <? 0) || (Z.of_nat (length (pending (transport this))) <? len)).
  - injection H as _ <-. repeat split. exists []. reflexivity.
  - injection H as _ <-. repeat split.
    exists (firstn (Z.to_nat len) (pending (transport this))).
    symmetry. apply firstn_skipn.
Qed.

Lemma forward_rstackGuard : forward rstackGuard.
Proof.
  unfold rstackGuard.
  apply forward_bind; [apply forward_this | intros this0].
  destruct (rpos this0) as [rp |]; [| apply forward_throw].
  destruct (rev rp) as [| top l]; [apply forward_ret |].
  destruct (Z.of_nat (length (rstack this0)) >? top + 1); [| apply forward_ret].
  intros this r this' H. injection H as _ <-.
  repeat split. exists []. reflexivity.
Qed.

Create HintDb forward discriminated.
#[local] Hint Resolve forward_ret forward_throw forward_lift forward_this
  forward_Transport_readByte forward_Transport_read forward_rstackGuard : forward.

Ltac forward_step :=
  match goal with
  | |- forward (bind _ _) => apply forward_bind; [| intros ?]
  | |- forward (andThen _ _) => apply forward_andThen; [| intros ?]
  | |- forward (if ?c then _ else _) => destruct c
  | |- forward (match ?x with _ => _ end) => destruct x
  | |- forward _ => solve [auto with forward]
  end.

Lemma forward_readByte : forward readByte.
Proof. unfold readByte. repeat forward_step. Qed.

Lemma forward_readPacked (n : nat) : forall acc, forward (readPacked n acc).
Proof.
  induction n as [| n IH]; intros acc; cbn [readPacked]; repeat forward_step.
Qed.

#[local] Hint Resolve forward_readByte forward_readPacked : forward.

Lemma forward_readI16 : forward readI16.
Proof. unfold readI16. repeat forward_step. Qed.

Lemma forward_readI32 : forward readI32.
Proof. unfold readI32. repeat forward_step. Qed.

Lemma forward_readI64 : forward readI64.
Proof. unfold readI64. repeat forward_step. Qed.

#[local] Hint Resolve forward_readI16 forward_readI32 forward_readI64 : forward.

Lemma forward_readBool : forward readBool.
Proof. unfold readBool. repeat forward_step. Qed.

Lemma forward_readMultiple (len : Z) : forward (readMultiple len).
Proof. unfold readMultiple. auto with forward. Qed.

#[local] Hint Resolve forward_readBool forward_readMultiple : forward.

Lemma forward_readString : forward readString.
Proof. unfold readString. repeat forward_step. Qed.

Lemma forward_readBinary : forward readBinary.
Proof. unfold readBinary. repeat forward_step. Qed.

Lemma forward_readDouble : forward readDouble.
Proof. unfold readDouble. cbv zeta. repeat forward_step. Qed.

Lemma forward_readFieldBegin : forward readFieldBegin.
Proof. unfold readFieldBegin. repeat forward_step. Qed.

Lemma forward_readMapBegin : forward readMapBegin.
Proof. unfold readMapBegin. repeat forward_step. Qed.

Lemma forward_readListBegin : forward readListBegin.
Proof. unfold readListBegin. repeat forward_step. Qed.

Lemma forward_readSetBegin : forward readSetBegin.
Proof. unfold readSetBegin. repeat forward_step. Qed.

Lemma forward_readMessageBegin : forward readMessageBegin.
Proof.
  unfold readMessageBegin, readMultipleAsString.
  apply forward_bind; [auto with forward | intros version].
  destruct (version <? 0).
  - destruct (JS.truthy _); repeat forward_step; apply forward_readString.
  - repeat forward_step.
Qed.

#[local] Hint Resolve forward_readString forward_readBinary forward_readDouble
  forward_readFieldBegin forward_readMapBegin forward_readListBegin
  forward_readSetBegin forward_readMessageBegin : forward.

Lemma forward_skip_all (fuel : nat) :
  (forall type, forward (skip fuel type)) /\
  forward (skipFields fuel) /\
  (forall r i, forward (skipEntries fuel r i)) /\
  (forall r i, forward (skipElements fuel r i)).
Proof.
  induction fuel as [| fuel (IHskip & IHfields & IHentries & IHelems)].
  - split; [intros type | split; [| split; intros r i]]; apply forward_ret.
  - split; [| split; [| split]].
    + intros type. cbn [skip].
      repeat match goal with
             | |- forward (if ?c then _ else _) => destruct c
             end;
        unfold readStructBegin, readStructEnd, readMapEnd, readSetEnd, readListEnd,
          readFieldEnd;
        repeat forward_step; auto.
    + cbn [skipFields]. unfold readFieldEnd. repeat forward_step; auto.
    + intros r i. cbn [skipEntries]. repeat forward_step; auto.
    + intros r i. cbn [skipElements]. repeat forward_step; auto.
Qed.

(** X18. Reading only moves forward: whatever a read method or [skip]
    returns or throws, it has sent nothing, kept the strictness flags,
    and what is left to read is a suffix of what there was. *)
Theorem readers_only_consume :
  forward readMessageBegin /\ forward readFieldBegin /\ forward readMapBegin /\
  forward readListBegin /\ forward readSetBegin /\ forward readBool /\
  forward readByte /\ forward readI16 /\ forward readI32 /\ forward readI64 /\
  forward readDouble /\ forward readString /\ forward readBinary /\
  (forall fuel type, forward (skip fuel type)).
Proof.
  repeat apply conj; auto with forward.
  intros fuel type. apply (forward_skip_all fuel).
Qed.

Lemma sending_ret {A} (a : A) : sending (ret a).
Proof.
  intros this r this' H. injection H as _ <-.
  exists []. symmetry. apply append_nil.
Qed.

Lemma sending_throw {A} (e : exn) : sending (@throw A e).
Proof.
  intros this r this' H. injection H as _ <-.
  exists []. symmetry. apply append_nil.
Qed.

Lemma sending_lift {A} (x : result A) : sending (lift x).
Proof.
  intros this r this' H. injection H as _ <-.
  exists []. symmetry. apply append_nil.
Qed.

Lemma sending_this : sending this_.
Proof.
  intros this r this' H. injection H as _ <-.
  exists []. symmetry. apply append_nil.
Qed.

Lemma sending_bind {A B} (m : M A) (k : A -> M B) :
  sending m -> (forall a, sending (k a)) -> sending (bind m k).
Proof.
  intros Hm Hk this r this' H. unfold bind in H.
  destruct (m this) as [[a | e] t1] eqn:Hrun.
  - destruct (Hm _ _ _ Hrun) as (b1 & ->).
    destruct (Hk a _ _ _ H) as (b2 & ->).
    exists (b1 ++ b2). apply append_append.
  - injection H as <- <-. exact (Hm _ _ _ Hrun).
Qed.

Lemma sending_Transport_writeByte (b : Z) : sending (Transport.writeByte b).
Proof.
  intros this r this' H. injection H as _ <-. exists [b mod 256]. reflexivity.
Qed.

Lemma sending_Transport_write (buf : list Z) : sending (Transport.write buf).
Proof.
  intros this r this' H. injection H as _ <-. exists (octets buf). reflexivity.
Qed.

Create HintDb sending discriminated.
#[local] Hint Resolve sending_ret sending_throw sending_lift sending_this
  sending_Transport_writeByte sending_Transport_write : sending.

Ltac sending_step :=
  match goal with
  | |- sending (bind _ _) => apply sending_bind; [| intros ?]
  | |- sending (if ?c then _ else _) => destruct c
  | |- sending _ => solve [auto with sending]
  end.

Lemma sending_forEach (bytes : list Z) : sending (forEach bytes Transport.writeByte).
Proof. induction bytes as [| b bytes IH]; cbn [forEach]; repeat sending_step. Qed.

#[local] Hint Resolve sending_forEach : sending.

Lemma sending_writeByte (v : Z) : sending (writeByte v).
Proof. unfold writeByte. repeat sending_step. Qed.

Lemma sending_writeI16 (v : Z) : sending (writeI16 v).
Proof. unfold writeI16. repeat sending_step. Qed.

Lemma sending_writeI32 (v : Z) : sending (writeI32 v).
Proof. unfold writeI32. repeat sending_step. Qed.

Lemma sending_writeI64 (v : Z) : sending (writeI64 v).
Proof. unfold writeI64. repeat sending_step. Qed.

#[local] Hint Resolve sending_writeByte sending_writeI16 sending_writeI32
  sending_writeI64 : sending.

Lemma sending_writeString (s : string) : sending (writeString s).
Proof. unfold writeString. cbv zeta. repeat sending_step. Qed.

#[local] Hint Resolve sending_writeString : sending.

(** X19. Writing only appends: whatever a write method returns or
    throws, the protocol object afterwards is the one before with some
    bytes added to the channel; nothing pending is consumed, no flag
    changes, and bytes sent before a throw stay sent. *)
Theorem writers_only_append :
  (forall name type seqid, sending (writeMessageBegin name type seqid)) /\
  (forall name type id, sending (writeFieldBegin name type id)) /\
  sending writeFieldStop /\
  (forall keyType valType n, sending (writeMapBegin keyType valType n)) /\
  (forall elemType n, sending (writeListBegin elemType n)) /\
  (forall elemType n, sending (writeSetBegin elemType n)) /\
  (forall b, sending (writeBool b)) /\
  (forall v, sending (writeByte v)) /\
  (forall v, sending (writeI16 v)) /\
  (forall v, sending (writeI32 v)) /\
  (forall v, sending (writeI64 v)) /\
  (forall s, sending (writeString s)) /\
  (forall buf, sending (writeBinary buf)).
Proof.
  repeat apply conj; intros;
    unfold writeMessageBegin, writeFieldBegin, writeFieldStop, writeMapBegin,
      writeListBegin, writeSetBegin, writeBool, writeBinary;
    repeat sending_step.
Qed.

(** ** The older revision *)

Lemma band_comm (a b : Z) : a .& b = b .& a.
Proof. unfold JS.band. apply Z.land_comm. Qed.

Lemma legacy_readI16_run (a b : Z) (rest : list Z) (sr sw : bool) :
  isOctet a -> isOctet b ->
  Legacy.readI16 (receiving (a :: b :: rest) sr sw)
  = (Ok (a * 256 + b), receiving rest sr sw).
Proof.
  unfold isOctet. intros Ha Hb. unfold Legacy.readI16.
  eapply bind_then; [apply (readByte_run a (b :: rest)); [exact Ha | reflexivity] |].
  eapply bind_then; [apply (readByte_run b rest); [exact Hb | reflexivity] |].
  rewrite !signed_octet_band by assumption.
  rewrite (shl_mul a 8) by (change (2 ^ 8) with 256; lia).
  rewrite (bor_add (a * 2 ^ 8) b 8);
    [reflexivity | lia | change (2 ^ 8) with 256; lia
     | apply Z.mod_mul; lia | change (2 ^ 8) with 256; lia].
Qed.

Lemma legacy_readI32_run (a b c d : Z) (rest : list Z) (sr sw : bool) :
  isOctet a -> isOctet b -> isOctet c -> isOctet d ->
  Legacy.readI32 (receiving (a :: b :: c :: d :: rest) sr sw)
  = (Ok (u32 [a; b; c; d]), receiving rest sr sw).
Proof.
  unfold isOctet. intros Ha Hb Hc Hd. unfold Legacy.readI32.
  eapply bind_then;
    [apply (readByte_run a (b :: c :: d :: rest)); [exact Ha | reflexivity] |].
  eapply bind_then; [apply (readByte_run b (c :: d :: rest)); [exact Hb | reflexivity] |].
  eapply bind_then; [apply (readByte_run c (d :: rest)); [exact Hc | reflexivity] |].
  eapply bind_then; [apply (readByte_run d rest); [exact Hd | reflexivity] |].
  rewrite !signed_octet_band by assumption.
  unfold u32. cbn [JS.index nth].
  rewrite (bor_0_l (a .<< 24)) by apply ToInt32_range.
  reflexivity.
Qed.

Lemma legacy_writeI32_run (v : Z) (this : protocol) :
  Legacy.writeI32 v this =
  if (-2147483647 <=? v) && (v <=? 2147483647)
  then (Ok tt, append (p32 v) this)
  else (Throw (IncorrectInt 4 v), this).
Proof.
  unfold Legacy.writeI32.
  change (2 ^ 31 * -1) with (-2147483648). change (2 ^ 31) with 2147483648.
  destruct ((-2147483647 <=? v) && (v <=? 2147483647)) eqn:Hin.
  - apply andb_prop in Hin. destruct Hin as [Hlo Hhi].
    apply Z.leb_le in Hlo. apply Z.leb_le in Hhi.
    assert (Hleg : (v <=? -2147483648) || (v >=? 2147483648) = false)
      by (apply orb_false_intro; [apply Z.leb_gt | rewrite Z.geb_leb; apply Z.leb_gt]; lia).
    rewrite Hleg.
    rewrite <- (octets_p32 v) by lia.
    rewrite !(band_comm 255).
    unfold bind, Transport.writeByte, append, withTransport, octets, p32.
    cbn [transport sent pending map strictRead strictWrite rstack rpos].
    rewrite <- !app_assoc. reflexivity.
  - apply andb_false_iff in Hin.
    assert (Hleg : (v <=? -2147483648) || (v >=? 2147483648) = true)
      by (apply orb_true_iff; destruct Hin as [Hin | Hin]; apply Z.leb_gt in Hin;
          [left; apply Z.leb_le | right; rewrite Z.geb_leb; apply Z.leb_le]; lia).
    rewrite Hleg. reflexivity.
Qed.

(** X20. The two revisions of [writeI32] accept the same numbers, from
    -(2^31 - 1) to 2^31 - 1, and send the same four bytes for them; on
    any other number both throw and send nothing. *)
Theorem writeI32_revisions (v : Z) (this : protocol) :
  (-2147483647 <= v <= 2147483647 ->
   Legacy.writeI32 v this = (Ok tt, append (p32 v) this) /\
   writeI32 v this = (Ok tt, append (p32 v) this)) /\
  (v < -2147483647 \/ 2147483647 < v ->
   Legacy.writeI32 v this = (Throw (IncorrectInt 4 v), this) /\
   writeI32 v this = (Throw (OutOfRange 4 v), this)).
Proof.
  rewrite writeI32_run, legacy_writeI32_run. unfold int32min, int32max.
  change (Z.opp 2147483647) with (-2147483647).
  split; intros Hv.
  - assert (Hin : (-2147483647 <=? v) && (v <=? 2147483647) = true)
      by (apply andb_true_intro; split; apply Z.leb_le; lia).
    rewrite Hin, octets_p32 by lia. split; reflexivity.
  - assert (Hout : (-2147483647 <=? v) && (v <=? 2147483647) = false)
      by (apply andb_false_iff; destruct Hv; [left | right]; apply Z.leb_gt; lia).
    rewrite Hout. split; reflexivity.
Qed.

Lemma writeI32_revisions_witness :
  (Legacy.writeI32 (-5) (fresh true false) = (Ok tt, append (p32 (-5)) (fresh true false)) /\
   writeI32 (-5) (fresh true false) = (Ok tt, append (p32 (-5)) (fresh true false))) /\
  (Legacy.writeI32 (2 ^ 31) (fresh true false)
   = (Throw (IncorrectInt 4 (2 ^ 31)), fresh true false) /\
   writeI32 (2 ^ 31) (fresh true false) = (Throw (OutOfRange 4 (2 ^ 31)), fresh true false)).
Proof.
  split.
  - apply (writeI32_revisions (-5) (fresh true false)). lia.
  - apply (writeI32_revisions (2 ^ 31) (fresh true false)). right. cbn. lia.
Defined.

(** X21. The older [writeI16] accepts every number from -2^15 to 2^16 - 1
    and sends its low sixteen bits; the older [readI16] reads them back
    as the number modulo 2^16, so that a negative number returns 65536
    larger than it was written. *)
Theorem legacy_i16_write_read (v : Z) (sr sw sr' sw' : bool) (rest : list Z) :
  -32768 <= v < 65536 ->
  Legacy.writeI16 v (fresh sr sw)
  = (Ok tt, append [(v / 256) mod 256; v mod 256] (fresh sr sw)) /\
  Legacy.readI16 (receiving ([(v / 256) mod 256; v mod 256] ++ rest) sr' sw')
  = (Ok (v mod 65536), receiving rest sr' sw').
Proof.
  intros Hv. split.
  - unfold Legacy.writeI16.
    change (2 ^ 15 * -1) with (-32768). change (2 ^ 16) with 65536.
    assert (Hguard : (v <? -32768) || (v >=? 65536) = false)
      by (apply orb_false_intro; [apply Z.ltb_ge | rewrite Z.geb_leb; apply Z.leb_gt]; lia).
    rewrite Hguard, !(band_comm 255).
    rewrite (sar_div v 8) by lia. change (2 ^ 8) with 256.
    rewrite (band_255 (v / 256)) by (Z.div_mod_to_equations; lia).
    rewrite (band_255 v) by lia.
    unfold bind, Transport.writeByte, append, withTransport.
    cbn [transport sent pending fresh TBinaryProtocol app
         strictRead strictWrite rstack rpos].
    rewrite !Z.mod_mod by lia. reflexivity.
  - cbn [app].
    rewrite legacy_readI16_run by (unfold isOctet; apply Z.mod_pos_bound; lia).
    f_equal. f_equal. Z.div_mod_to_equations; lia.
Qed.

Lemma legacy_i16_write_read_witness :
  Legacy.writeI16 (-1) (fresh true false)
  = (Ok tt, append [(-1 / 256) mod 256; (-1) mod 256] (fresh true false)) /\
  Legacy.readI16 (receiving ([(-1 / 256) mod 256; (-1) mod 256] ++ [9]) false true)
  = (Ok ((-1) mod 65536), receiving [9] false true).
Proof.
  apply (legacy_i16_write_read (-1) true false false true [9]). lia.
Defined.

Lemma legacy_readI32_p32 (v : Z) (rest : list Z) (sr sw : bool) :
  -2147483648 <= v < 2147483648 ->
  Legacy.readI32 (receiving (p32 v ++ rest) sr sw) = (Ok v, receiving rest sr sw).
Proof.
  intros Hv.
  rewrite <- (u32_p32 v) at 2 by assumption.
  rewrite p32_bytes by assumption. cbn [app].
  apply legacy_readI32_run; unfold isOctet; apply Z.mod_pos_bound; lia.
Qed.

(** X22. The older [writeI64] never sends the upper half of the number:
    the first four bytes are always 0 and the last four hold the number
    reduced to 32 bits; the older [readI64] returns that 32-bit number.
    Only numbers that fit 32 bits survive the round trip. *)
Theorem legacy_i64_write_read (v : Z) (sr sw sr' sw' : bool) (this' : protocol)
    (rest : list Z) :
  Legacy.writeI64 v (fresh sr sw) = (Ok tt, this') ->
  this' = append ([0; 0; 0; 0] ++ p32 (JS.ToInt32 v)) (fresh sr sw) /\
  Legacy.readI64 (receiving (sent (transport this') ++ rest) sr' sw')
  = (Ok (JS.ToInt32 v), receiving rest sr' sw') /\
  (JS.ToInt32 v = v <-> -2147483648 <= v < 2147483648).
Proof.
  intros Hwrite. unfold Legacy.writeI64 in Hwrite.
  destruct ((v <=? 2 ^ 63 * -1) || (v >=? 2 ^ 64)); [discriminate Hwrite |].
  cbv zeta in Hwrite.
  change (18446744069414584320 .>> 32) with 0 in Hwrite.
  assert (Hhi : v .& 0 = 0) by (unfold JS.band; apply Z.land_0_r).
  assert (Hlo : v .& 4294967295 = JS.ToInt32 v).
  { unfold JS.band. change (JS.ToInt32 4294967295) with (-1). apply Z.land_m1_r. }
  rewrite Hhi, Hlo in Hwrite.
  apply bind_Ok in Hwrite. destruct Hwrite as ([] & t1 & Hfirst & Hsecond).
  rewrite legacy_writeI32_run in Hfirst. cbn [Z.leb Z.compare andb] in Hfirst.
  injection Hfirst as <-.
  rewrite legacy_writeI32_run in Hsecond.
  destruct ((-2147483647 <=? JS.ToInt32 v) && (JS.ToInt32 v <=? 2147483647)) eqn:Hrange;
    [| discriminate Hsecond].
  injection Hsecond as <-.
  pose proof (ToInt32_range v) as Hbound.
  rewrite append_append. change (p32 0) with [0; 0; 0; 0].
  split; [reflexivity |]. split.
  - unfold Legacy.readI64.
    eapply bind_then.
    { apply (legacy_readI32_run 0 0 0 0 (p32 (JS.ToInt32 v) ++ rest));
        unfold isOctet; lia. }
    eapply bind_then;
      [apply (legacy_readI32_p32 (JS.ToInt32 v) rest); exact Hbound |].
    change (u32 [0; 0; 0; 0] .<< 32) with 0.
    rewrite bor_0_l by exact Hbound. reflexivity.
  - split; intros H.
    + rewrite <- H. exact Hbound.
    + apply ToInt32_small. exact H.
Qed.

Lemma legacy_i64_write_read_witness :
  snd (Legacy.writeI64 (2 ^ 40 + 7) (fresh true false))
  = append ([0; 0; 0; 0] ++ p32 (JS.ToInt32 (2 ^ 40 + 7))) (fresh true false) /\
  Legacy.readI64
    (receiving (sent (transport (snd (Legacy.writeI64 (2 ^ 40 + 7) (fresh true false)))) ++ [9])
               false true)
  = (Ok (JS.ToInt32 (2 ^ 40 + 7)), receiving [9] false true) /\
  (JS.ToInt32 (2 ^ 40 + 7) = 2 ^ 40 + 7 <-> -2147483648 <= 2 ^ 40 + 7 < 2147483648).
Proof.
  apply (legacy_i64_write_read (2 ^ 40 + 7) true false false true
           (snd (Legacy.writeI64 (2 ^ 40 + 7) (fresh true false))) [9]).
  reflexivity.
Defined.

(** ** The two revisions side by side *)

Lemma readI16_revisions_witness :
  outcome (Legacy.readI16 (receiving (128 :: 1 :: [9]) true false)) = Ok (128 * 256 + 1) /\
  outcome (readI16 (receiving (128 :: 1 :: [9]) true false))
  = Ok (if 128 <=? 128 then 128 * 256 + 1 - 65536 else 128 * 256 + 1).
Proof.
  apply (readI16_revisions 128 1 [9] true false); lia.
Defined.

Lemma readI32_revisions_witness :
  outcome (Legacy.readI32 (receiving (255 :: 0 :: 128 :: 7 :: [9]) true false))
  = outcome (readI32 (receiving (255 :: 0 :: 128 :: 7 :: [9]) true false)).
Proof.
  apply (readI32_revisions 255 0 128 7 [9] true false); lia.
Defined.

(** ** Helpers of the 64-bit packer *)

(** X25. [paddedHex(num, width)] is [width] characters long, for a width
    up to the 18 zeros it pads with, and reads back in base 16 as the
    number modulo 16^width: shorter numbers are padded with zeros, longer
    ones lose their upper digits. *)
Theorem paddedHex_low_digits (num : Z) (width : nat) :
  0 <= num -> (width <= 18)%nat ->
  length (paddedHex num width) = width /\
  parseInt (paddedHex num width) 16 = num mod 16 ^ Z.of_nat width.
Proof.
  intros Hnum Hwidth.
  rewrite paddedHex_digits by assumption.
  rewrite length_map, digitsBE_length.
  split; [reflexivity |].
  rewrite parseInt_hex by apply digitsBE_hex.
  rewrite valueBE_digitsBE. lia.
Qed.

Lemma paddedHex_low_digits_witness :
  length (paddedHex 74565 2) = 2%nat /\
  parseInt (paddedHex 74565 2) 16 = 74565 mod 16 ^ Z.of_nat 2.
Proof.
  apply (paddedHex_low_digits 74565 2); lia.
Defined.

(** ** The fields of a double *)

Lemma listEqb_eq (l1 l2 : list Z) : listEqb l1 l2 = true -> l1 = l2.
Proof.
  revert l2. induction l1 as [| x l1 IH]; intros [| y l2] H; try discriminate H.
  - reflexivity.
  - cbn [listEqb] in H. apply andb_prop in H. destruct H as [Hx Hl].
    apply Z.eqb_eq in Hx. subst y. f_equal. apply IH. exact Hl.
Qed.

Lemma byteBits_acc (j : nat) : forall byte bits,
  byteBits j byte bits = bits ++ byteBits j byte [].
Proof.
  induction j as [| j IH]; intros byte bits; cbn [byteBits].
  - symmetry. apply app_nil_r.
  - rewrite IH, (IH _ ([] ++ _)). cbn [app]. rewrite <- app_assoc. reflexivity.
Qed.

Lemma byteBits_msb (b : Z) (bits : list Z) :
  isOctet b -> byteBits 8 b bits = bits ++ rev (msbBits b).
Proof.
  intros Hb. rewrite byteBits_acc. f_equal.
  apply listEqb_eq.
  apply (byte_cases (fun b => listEqb (byteBits 8 b []) (rev (msbBits b))));
    [vm_compute; reflexivity | exact Hb].
Qed.

Lemma msbBits_bits (b : Z) : Forall isBit (msbBits b).
Proof.
  unfold msbBits.
  repeat (constructor; [unfold isBit; apply Z.mod_pos_bound; lia |]). constructor.
Qed.

Lemma parseInt_bits (bits : list Z) :
  Forall isBit bits -> parseInt (map digitChar bits) 2 = valueBits 0 bits.
Proof.
  assert (Hdigits : forall ds acc, Forall isBit ds ->
            parseDigits 2 acc (map digitChar ds) = valueBits acc ds).
  { induction ds as [| d ds IH]; intros acc Hds; [reflexivity |].
    inversion Hds as [| ? ? Hd Hrest]; subst.
    cbn [map parseDigits].
    rewrite digitValue_digitChar by (unfold isBit, isHexDigit in *; lia).
    assert (Hlt : (d <? 2) = true) by (apply Z.ltb_lt; apply Hd).
    rewrite Hlt. apply IH. assumption. }
  intros Hbits. destruct bits as [| d bits]; [reflexivity |].
  inversion Hbits as [| ? ? Hd _]; subst.
  cbn [map]. rewrite digitChar_not_minus by (unfold isBit, isHexDigit in *; lia).
  apply (Hdigits (d :: bits)). assumption.
Qed.

Lemma valueBits_app (a b : list Z) (acc : Z) :
  valueBits acc (a ++ b) = valueBits (valueBits acc a) b.
Proof. unfold valueBits. apply fold_left_app. Qed.

Lemma valueBits_byte (b acc : Z) :
  isOctet b -> valueBits acc (msbBits b) = acc * 256 + b.
Proof.
  intros Hb. unfold valueBits, msbBits. cbn [fold_left].
  unfold isOctet in Hb. Z.div_mod_to_equations. lia.
Qed.

Lemma valueBits_low7 (b acc : Z) :
  isOctet b -> valueBits acc (skipn 1 (msbBits b)) = acc * 128 + b mod 128.
Proof.
  intros Hb. unfold valueBits, msbBits. cbn [skipn fold_left].
  unfold isOctet in Hb. Z.div_mod_to_equations. lia.
Qed.

Lemma valueBits_high4 (b acc : Z) :
  isOctet b -> valueBits acc (firstn 4 (msbBits b)) = acc * 16 + b / 16.
Proof.
  intros Hb. unfold valueBits, msbBits. cbn [firstn fold_left].
  unfold isOctet in Hb. Z.div_mod_to_equations. lia.
Qed.

Lemma valueBits_low4 (b acc : Z) :
  isOctet b -> valueBits acc (skipn 4 (msbBits b)) = acc * 16 + b mod 16.
Proof.
  intros Hb. unfold valueBits, msbBits. cbn [skipn fold_left].
  unfold isOctet in Hb. Z.div_mod_to_equations. lia.
Qed.

Ltac all_bits :=
  unfold msbBits; cbn [firstn skipn app];
  repeat (constructor; [unfold isBit; apply Z.mod_pos_bound; lia |]); constructor.

Lemma bits_of_bytes (b0 b1 b2 b3 b4 b5 b6 b7 : Z) :
  isOctet b0 -> isOctet b1 -> isOctet b2 -> isOctet b3 ->
  isOctet b4 -> isOctet b5 -> isOctet b6 -> isOctet b7 ->
  rev (bytesBits [b0; b1; b2; b3; b4; b5; b6; b7])
  = msbBits b0 ++ msbBits b1 ++ msbBits b2 ++ msbBits b3 ++
    msbBits b4 ++ msbBits b5 ++ msbBits b6 ++ msbBits b7.
Proof.
  intros H0 H1 H2 H3 H4 H5 H6 H7.
  unfold bytesBits. cbn [rev app fold_left].
  rewrite !byteBits_msb by assumption.
  cbn [app]. rewrite !rev_app_distr, !rev_involutive, <- ?app_assoc. reflexivity.
Qed.

Lemma double_fields_of_bytes (b0 b1 b2 b3 b4 b5 b6 b7 : Z) :
  isOctet b0 -> isOctet b1 -> isOctet b2 -> isOctet b3 ->
  isOctet b4 -> isOctet b5 -> isOctet b6 -> isOctet b7 ->
  let str := join (rev (bytesBits [b0; b1; b2; b3; b4; b5; b6; b7])) in
  parseInt (substring 0 1 str) 2 = b0 / 128 /\
  parseInt (substring 1 (1 + 11) str) 2 = b0 mod 128 * 16 + b1 / 16 /\
  parseInt (substringFrom (1 + 11) str) 2
  = valueBytes [b1 mod 16; b2; b3; b4; b5; b6; b7].
Proof.
  intros H0 H1 H2 H3 H4 H5 H6 H7 str. subst str.
  rewrite bits_of_bytes by assumption.
  unfold join, substring, substringFrom.
  rewrite !skipn_map, !firstn_map.
  set (tail := msbBits b2 ++ msbBits b3 ++ msbBits b4 ++ msbBits b5 ++
               msbBits b6 ++ msbBits b7).
  assert (Htail : Forall isBit tail).
  { subst tail. repeat (apply Forall_app; split; [apply msbBits_bits |]).
    apply msbBits_bits. }
  assert (Hsign : firstn (1 - 0) (skipn 0 (msbBits b0 ++ msbBits b1 ++ tail))
                  = firstn 1 (msbBits b0)) by reflexivity.
  assert (Hexp : firstn (1 + 11 - 1) (skipn 1 (msbBits b0 ++ msbBits b1 ++ tail))
                 = skipn 1 (msbBits b0) ++ firstn 4 (msbBits b1)) by reflexivity.
  assert (Hfrac : skipn (1 + 11) (msbBits b0 ++ msbBits b1 ++ tail)
                  = skipn 4 (msbBits b1) ++ tail) by reflexivity.
  rewrite Hsign, Hexp, Hfrac.
  rewrite !parseInt_bits;
    [| apply Forall_app; split; [all_bits | exact Htail]
     | apply Forall_app; split; all_bits
     | all_bits].
  split; [| split].
  - unfold valueBits, msbBits. cbn [firstn fold_left].
    unfold isOctet in H0. Z.div_mod_to_equations. lia.
  - rewrite valueBits_app, valueBits_low7, valueBits_high4 by assumption. lia.
  - subst tail.
    rewrite !valueBits_app, valueBits_low4, !valueBits_byte by assumption.
    unfold valueBytes. cbn [fold_left]. lia.
Qed.

(** X26. [readDouble] takes the next eight bytes as one 64-bit word, most
    significant byte first, and decodes the IEEE-754 layout: the sign is
    bit 63, the exponent the eleven bits below it, the fraction the low
    52 bits; exponent 2047 gives NaN or an infinity, exponent 0 a zero or
    a subnormal number. *)
Theorem readDouble_fields (bytes rest : list Z) (sr sw : bool) :
  length bytes = 8%nat -> Forall isOctet bytes ->
  let w := valueBytes bytes in
  readDouble (receiving (bytes ++ rest) sr sw)
  = (Ok (decodeDouble (if w / 2 ^ 63 =? 0 then 1 else -1)
                      ((w / 2 ^ 52) mod 2 ^ 11)
                      (w mod 2 ^ 52)),
     receiving rest sr sw).
Proof.
  intros Hlen Hbytes w. subst w.
  list_of_length Hlen. split_Forall.
  match goal with
  | |- context [valueBytes [?b0; ?b1; ?b2; ?b3; ?b4; ?b5; ?b6; ?b7]] =>
      destruct (double_fields_of_bytes b0 b1 b2 b3 b4 b5 b6 b7) as (Hs & He & Hf);
        try assumption;
      set (s := b0 / 128) in *;
      set (e := b0 mod 128 * 16 + b1 / 16) in *;
      set (f := valueBytes [b1 mod 16; b2; b3; b4; b5; b6; b7]) in *;
      assert (Hw : valueBytes [b0; b1; b2; b3; b4; b5; b6; b7] / 2 ^ 63 = s /\
                   (valueBytes [b0; b1; b2; b3; b4; b5; b6; b7] / 2 ^ 52) mod 2 ^ 11 = e /\
                   valueBytes [b0; b1; b2; b3; b4; b5; b6; b7] mod 2 ^ 52 = f);
      [ subst s e f; unfold valueBytes, isOctet in *; cbn [fold_left];
        change (2 ^ 63) with 9223372036854775808;
        change (2 ^ 52) with 4503599627370496;
        change (2 ^ 11) with 2048;
        repeat split; Z.div_mod_to_equations; lia
      | destruct Hw as (-> & -> & ->) ];
      cbv zeta in Hs, He, Hf;
      unfold readDouble; cbv zeta;
      eapply bind_then;
        [ apply (readMultiple_run [b0; b1; b2; b3; b4; b5; b6; b7] rest); reflexivity | ]
  end.
  rewrite Hs, He, Hf.
  change ((1 .<< 11) - 1) with 2047.
  unfold decodeDouble, JS.truthy.
  rewrite Z.gtb_ltb.
  destruct (s =? 0), (e =? 2047), (0 <? e), (f =? 0); reflexivity.
Qed.

Lemma readDouble_fields_witness :
  readDouble (receiving ([192; 8; 0; 0; 0; 0; 0; 1] ++ [9]) true false)
  = (Ok (decodeDouble
           (if valueBytes [192; 8; 0; 0; 0; 0; 0; 1] / 2 ^ 63 =? 0 then 1 else -1)
           ((valueBytes [192; 8; 0; 0; 0; 0; 0; 1] / 2 ^ 52) mod 2 ^ 11)
           (valueBytes [192; 8; 0; 0; 0; 0; 0; 1] mod 2 ^ 52)),
     receiving [9] true false).
Proof.
  apply (readDouble_fields [192; 8; 0; 0; 0; 0; 0; 1] [9] true false).
  - reflexivity.
  - repeat (constructor; [unfold isOctet; lia |]). constructor.
Defined.
